(** * Conversation and agent-turn orchestration (phase-3 backend)

    A shallow embedding of

      - [services/conversations.py]: [get_or_create_conversation],
        [get_recent_messages], [store_message];
      - [services/chat.py]: [process_user_message];
      - [api/chat.py]: the [chat] and [get_conversation] endpoints;

    over an explicit model of the SQLModel session (a unit of work that is
    flushed by [commit]), the relational store behind it, the wall clock,
    the [uuid4] generator and the chat agent; and, apart from these, of
    the date utilities [_preprocess_day_pattern] and
    [format_relative_date] of [utils/date_parser.py] (phase-5 backend).

    Conventions:

      - the store is two tables, rows in insertion order; a query reads
        the committed rows; [session.get] first flushes what the session
        has pending, as the session does before a load;
      - every call of the session that goes to the store ([exec], [get],
        [commit], [refresh]) is one round trip, and any round trip may
        fail; attribute loads behind the scenes are not counted;
      - [ORDER BY] is a sort; which of two rows with equal keys comes
        first is whatever the sort gives, and no statement below rests on
        it;
      - [limit] is a natural number: a negative [LIMIT] is not modelled;
      - a string is a sequence of one-byte characters, and white space is
        told apart among the code points below 256 ([isspace]); what is
        stated of white space is stated of such text;
      - code runs one request at a time. *)

From Stdlib Require Import Ascii String.
From stdpp Require Import base numbers list sorting strings pretty.

(** ** Data model *)

(** [uuid.UUID] values are opaque identifiers; [datetime] values are
    microseconds on the UTC time line. *)
Abbreviation UUID := N (only parsing).
Abbreviation datetime := Z (only parsing).

Module Conversation.
Record t := mk {
  id : UUID;
  user_id : UUID;
  created_at : datetime;
  updated_at : datetime
}.
End Conversation.

Module Message.
Record t := mk {
  id : UUID;
  conversation_id : UUID;
  role : string;
  content : string;
  created_at : datetime
}.
End Message.

#[global] Instance Conversation_eq_dec : EqDecision Conversation.t.
Proof. solve_decision. Defined.

#[global] Instance Message_eq_dec : EqDecision Message.t.
Proof. solve_decision. Defined.

(** The two tables, rows in storage (insertion) order. *)
Record Store := {
  conversations : list Conversation.t;
  messages : list Message.t
}.

(** What the session holds until the next flush: new rows handed to
    [session.add], and loaded rows whose attributes were assigned. *)
Inductive Change :=
| InsertConversation (c : Conversation.t)
| InsertMessage (m : Message.t)
| UpdateConversation (c : Conversation.t).

(** One element of the [history] list built by [process_user_message]:
    the dict [{"role": m.role, "content": m.content}]. *)
Record HistoryEntry := {
  entry_role : string;
  entry_content : string
}.

#[global] Instance HistoryEntry_eq_dec : EqDecision HistoryEntry.
Proof. solve_decision. Defined.

(** Python exceptions that cross the service layer. *)
Inductive Exception :=
| OperationalError (msg : string)
| IntegrityError (msg : string)
| InvalidRequestError (msg : string)
| AgentException (msg : string).

(** [str(e)] *)
Definition str (e : Exception) : string :=
  match e with
  | OperationalError msg => msg
  | IntegrityError msg => msg
  | InvalidRequestError msg => msg
  | AgentException msg => msg
  end.

Inductive Outcome (A : Type) :=
| Returned (a : A)
| Raised (e : Exception).
Arguments Returned {A} a.
Arguments Raised {A} e.

(** The surroundings of the code: what the k-th reading of
    [datetime.now(timezone.utc)] is, what the k-th [uuid4()] draw is,
    whether the k-th round trip to the store fails (and with what text),
    what the chat agent answers, for a user, to a history, and whether
    the store at hand checks that the conversation of a message exists
    (a foreign key on [conversation_id] that the store enforces). *)
Record Env := {
  now : nat -> datetime;
  uuid4 : nat -> UUID;
  db_fault : nat -> option string;
  process_message : UUID -> list HistoryEntry -> Outcome string;
  foreign_keys : bool
}.

(** The state threaded through the code: the committed store, the
    session's unit of work, how far the clock, the identifier generator
    and the store connection have been consumed, and the log of agent
    invocations (user and history of each call, oldest first). *)
Record World := {
  db : Store;
  pending : list Change;
  clock_reads : nat;
  uuid_draws : nat;
  round_trips : nat;
  agent_calls : list (UUID * list HistoryEntry)
}.

Definition set_db (s : Store) (w : World) : World :=
  {| db := s; pending := pending w; clock_reads := clock_reads w;
     uuid_draws := uuid_draws w; round_trips := round_trips w;
     agent_calls := agent_calls w |}.

Definition set_pending (p : list Change) (w : World) : World :=
  {| db := db w; pending := p; clock_reads := clock_reads w;
     uuid_draws := uuid_draws w; round_trips := round_trips w;
     agent_calls := agent_calls w |}.

Definition tick_clock (w : World) : World :=
  {| db := db w; pending := pending w; clock_reads := S (clock_reads w);
     uuid_draws := uuid_draws w; round_trips := round_trips w;
     agent_calls := agent_calls w |}.

Definition tick_uuid (w : World) : World :=
  {| db := db w; pending := pending w; clock_reads := clock_reads w;
     uuid_draws := S (uuid_draws w); round_trips := round_trips w;
     agent_calls := agent_calls w |}.

Definition tick_trip (w : World) : World :=
  {| db := db w; pending := pending w; clock_reads := clock_reads w;
     uuid_draws := uuid_draws w; round_trips := S (round_trips w);
     agent_calls := agent_calls w |}.

Definition log_call (u : UUID) (h : list HistoryEntry) (w : World) : World :=
  {| db := db w; pending := pending w; clock_reads := clock_reads w;
     uuid_draws := uuid_draws w; round_trips := round_trips w;
     agent_calls := agent_calls w ++ [(u, h)] |}.

(** ** State and exception monad *)

Definition M (A : Type) : Type := World -> Outcome A * World.

Definition ret {A} (a : A) : M A := fun w => (Returned a, w).

Definition raise {A} (e : Exception) : M A := fun w => (Raised e, w).

Definition bind {A B} (m : M A) (f : A -> M B) : M B :=
  fun w =>
    match m w with
    | (Returned a, w') => f a w'
    | (Raised e, w') => (Raised e, w')
    end.

Notation "x <- m ;; k" := (bind m (fun x => k))
  (at level 100, m at next level, right associativity).
Notation "m ;; k" := (bind m (fun _ => k))
  (at level 100, right associativity).

(** ** The store *)

Definition has_conversation (i : UUID) (s : Store) : bool :=
  bool_decide (Exists (fun c => Conversation.id c = i) (conversations s)).

Definition has_message (i : UUID) (s : Store) : bool :=
  bool_decide (Exists (fun m => Message.id m = i) (messages s)).

(** Row lookup by primary key. *)
Definition find_conversation (i : UUID) (s : Store) : option Conversation.t :=
  head (filter (fun c => Conversation.id c = i) (conversations s)).

Definition find_message (i : UUID) (s : Store) : option Message.t :=
  head (filter (fun m => Message.id m = i) (messages s)).

(** Modelled from the spec: the table declarations ([models/message.py],
    [models/conversation.py]) are not among the sources.  The spec has
    the store enforce conversation membership; a store does so when [fk]
    holds, which is the [foreign_keys] of the environment.  Flushing one
    change: an INSERT whose primary key is already present is refused;
    with [fk], so is the INSERT of a message whose conversation has no
    row; an UPDATE rewrites the row with that primary key.  A refusal
    comes with the text of the error. *)
Definition apply_change (fk : bool) (ch : Change) (s : Store)
  : Store + string :=
  match ch with
  | InsertConversation c =>
      if has_conversation (Conversation.id c) s then inr "duplicate key"
      else inl {| conversations := conversations s ++ [c];
                  messages := messages s |}
  | InsertMessage m =>
      if has_message (Message.id m) s then inr "duplicate key"
      else if fk && negb (has_conversation (Message.conversation_id m) s)
      then inr "foreign key violation"
      else inl {| conversations := conversations s;
                  messages := messages s ++ [m] |}
  | UpdateConversation c =>
      inl {| conversations :=
               (fun r => if decide (Conversation.id r = Conversation.id c)
                         then c else r) <$> conversations s;
             messages := messages s |}
  end.

(** Flushing the unit of work, in the order the changes were made. *)
Fixpoint apply_changes (fk : bool) (chs : list Change) (s : Store)
  : Store + string :=
  match chs with
  | [] => inl s
  | ch :: rest =>
      match apply_change fk ch s with
      | inl s' => apply_changes fk rest s'
      | inr msg => inr msg
      end
  end.

(** [ORDER BY updated_at DESC] and [ORDER BY created_at DESC]. *)
Definition updated_desc : relation Conversation.t :=
  fun a b => (Conversation.updated_at b <= Conversation.updated_at a)%Z.

Definition created_desc : relation Message.t :=
  fun a b => (Message.created_at b <= Message.created_at a)%Z.

#[global] Instance updated_desc_dec : RelDecision updated_desc.
Proof. intros a b. unfold updated_desc. apply _. Defined.

#[global] Instance created_desc_dec : RelDecision created_desc.
Proof. intros a b. unfold created_desc. apply _. Defined.

(** [select(Conversation).where(Conversation.user_id == user_id)
      .order_by(Conversation.updated_at.desc())] *)
Definition select_conversations (user_id : UUID) (s : Store)
  : list Conversation.t :=
  merge_sort updated_desc
    (filter (fun c => Conversation.user_id c = user_id) (conversations s)).

(** The rows of one conversation, in storage order. *)
Definition messages_of (conversation_id : UUID) (s : Store) : list Message.t :=
  filter (fun m => Message.conversation_id m = conversation_id) (messages s).

(** [select(Message).where(Message.conversation_id == conversation_id)
      .order_by(Message.created_at.desc()).limit(limit)] *)
Definition select_messages (conversation_id : UUID) (limit : nat) (s : Store)
  : list Message.t :=
  take limit (merge_sort created_desc (messages_of conversation_id s)).

(** Modelled from the spec: [models/message.py], where [created_at] gets
    its value, is not among the sources.  The spec has the server assign
    a creation time strictly greater than that of any message stored in
    the same conversation, by a monotonic clock or, where the wall clock
    does not give one, by a logical sequence: the creation time is the
    reading of the clock, or, where a stored message of the conversation
    is not older than the reading, the time right after the latest of
    them. *)
Definition creation_time (reading : datetime) (conversation_id : UUID)
    (s : Store) : datetime :=
  foldr (fun m t => Z.max t (1 + Message.created_at m)%Z) reading
    (messages_of conversation_id s).

(** ** Primitive effects *)

Section Service.
Context (E : Env).

(** [datetime.now(timezone.utc)] *)
Definition utcnow : M datetime :=
  fun w => (Returned (now E (clock_reads w)), tick_clock w).

(** [uuid4()] *)
Definition new_uuid : M UUID :=
  fun w => (Returned (uuid4 E (uuid_draws w)), tick_uuid w).

(** One round trip to the store: it either goes through or raises. *)
Definition round_trip : M unit :=
  fun w =>
    match db_fault E (round_trips w) with
    | Some msg => (Raised (OperationalError msg), tick_trip w)
    | None => (Returned tt, tick_trip w)
    end.

(** [session.exec(statement)]: run a SELECT over the committed rows. *)
Definition session_exec {A} (query : Store -> A) : M A :=
  round_trip ;; fun w => (Returned (query (db w)), w).

(** The flush before a load (autoflush): what is pending is sent to the
    store, which may refuse it; what the store takes stays uncommitted
    until [commit].  A refused flush rolls the session back. *)
Definition session_flush : M unit :=
  fun w =>
    match apply_changes (foreign_keys E) (pending w) (db w) with
    | inl _ => (Returned tt, w)
    | inr msg => (Raised (IntegrityError msg), set_pending [] w)
    end.

(** [session.get(Conversation, id)]: the session flushes what it has
    pending, then loads the row; counted as one round trip, whether or
    not the session could answer from the rows it holds. *)
Definition session_get (i : UUID) : M (option Conversation.t) :=
  round_trip ;;
  session_flush ;;
  fun w => (Returned (find_conversation i (db w)), w).

(** [session.add(obj)] *)
Definition session_add (ch : Change) : M unit :=
  fun w => (Returned tt, set_pending (pending w ++ [ch]) w).

(** [session.commit()]: one round trip in which the whole unit of work
    reaches the store, or none of it does.  Nothing is left pending
    either way: a flush that fails rolls the session back. *)
Definition session_commit : M unit :=
  fun w =>
    let w' := set_pending [] (tick_trip w) in
    match db_fault E (round_trips w) with
    | Some msg => (Raised (OperationalError msg), w')
    | None =>
        match apply_changes (foreign_keys E) (pending w) (db w) with
        | inl s => (Returned tt, set_db s w')
        | inr msg => (Raised (IntegrityError msg), w')
        end
    end.

(** [session.refresh(obj)]: reload the row by primary key. *)
Definition session_refresh_conversation (c : Conversation.t)
  : M Conversation.t :=
  row <- session_get (Conversation.id c) ;;
  match row with
  | Some c' => ret c'
  | None => raise (InvalidRequestError "could not refresh instance")
  end.

Definition session_refresh_message (m : Message.t) : M Message.t :=
  row <- session_exec (find_message (Message.id m)) ;;
  match row with
  | Some m' => ret m'
  | None => raise (InvalidRequestError "could not refresh instance")
  end.

(** Modelled from the spec: [models/conversation.py] is not among the
    sources.  The spec gives a Conversation an opaque identifier, an
    owner, a creation time and a last-updated time; the constructor fills
    what the caller does not pass with a [uuid4] draw and with readings of
    the clock, as [store_message] itself does for [updated_at]. *)
Definition new_Conversation (user_id : UUID) : M Conversation.t :=
  i <- new_uuid ;;
  created <- utcnow ;;
  updated <- utcnow ;;
  ret (Conversation.mk i user_id created updated).

(** Modelled from the spec: [models/message.py] is not among the sources.
    The spec gives a Message an opaque identifier, a conversation, a role,
    a content and a creation time assigned by the server, strictly
    greater than that of any message stored in the same conversation: the
    identifier is a [uuid4] draw, the creation time the [creation_time]
    that a reading of the clock gives over the stored rows. *)
Definition new_Message (conversation_id : UUID) (role content : string)
  : M Message.t :=
  i <- new_uuid ;;
  reading <- utcnow ;;
  fun w =>
    (Returned
       (Message.mk i conversation_id role content
          (creation_time reading conversation_id (db w))), w).

(** ** services/conversations.py *)

Definition get_or_create_conversation (user_id : UUID) : M Conversation.t :=
  rows <- session_exec (select_conversations user_id) ;;
  match head rows with
  | Some conversation => ret conversation
  | None =>
      conversation <- new_Conversation user_id ;;
      session_add (InsertConversation conversation) ;;
      session_commit ;;
      session_refresh_conversation conversation
  end.

Definition get_recent_messages (conversation_id : UUID) (limit : nat)
  : M (list Message.t) :=
  messages <- session_exec (select_messages conversation_id limit) ;;
  ret (reverse messages).

(** The default of the [limit] parameter. *)
Definition default_limit : nat := 50.

Definition store_message (conversation_id : UUID) (role content : string)
  : M Message.t :=
  message <- new_Message conversation_id role content ;;
  session_add (InsertMessage message) ;;
  conversation <- session_get conversation_id ;;
  match conversation with
  | Some c =>
      t <- utcnow ;;
      session_add
        (UpdateConversation
           (Conversation.mk (Conversation.id c) (Conversation.user_id c)
              (Conversation.created_at c) t))
  | None => ret tt
  end ;;
  session_commit ;;
  session_refresh_message message.

(** ** services/chat.py *)

Definition to_entry (m : Message.t) : HistoryEntry :=
  {| entry_role := Message.role m; entry_content := Message.content m |}.

(** Modelled from the spec: [mcp/agent.py] ([ChatAgent]) is not among the
    sources.  The spec has the agent as a black box, history in, reply
    text out, that may fail; what it does to the task tables is outside
    this data model.  [ChatAgent(session, user_id).process_message(history)]
    is the [process_message] of the environment; the call is recorded in
    [agent_calls] before its result is known. *)
Definition agent_process_message (user_id : UUID) (history : list HistoryEntry)
  : M string :=
  fun w => (process_message E user_id history, log_call user_id history w).

Definition process_user_message (user_id : UUID) (message_content : string)
  : M Message.t :=
  conversation <- get_or_create_conversation user_id ;;
  store_message (Conversation.id conversation) "user" message_content ;;
  recent_messages <-
    get_recent_messages (Conversation.id conversation) default_limit ;;
  let history := to_entry <$> recent_messages in
  response_content <- agent_process_message user_id history ;;
  assistant_message <-
    store_message (Conversation.id conversation) "assistant" response_content ;;
  ret assistant_message.

End Service.

(** ** api/chat.py *)

(** What a request handler hands back to the framework: a response body,
    or [HTTPException(status_code, detail)]. *)
Inductive HTTPResult (A : Type) :=
| Response (body : A)
| HTTPException (status_code : nat) (detail : string).
Arguments Response {A} body.
Arguments HTTPException {A} status_code detail.

(** [ConversationResponse]; [id] and [updated_at] are kept as values,
    their rendering by [str] and [isoformat] is left out. *)
Module ConversationResponse.
Record t := mk {
  id : UUID;
  messages : list Message.t;
  updated_at : datetime
}.
End ConversationResponse.

(** [ch.isspace()] on the code points below 256; white space beyond
    them (U+2003 and the like) is not told apart. *)
Definition isspace (ch : ascii) : bool :=
  let n := nat_of_ascii ch in
  ((9 <=? n) && (n <=? 13)) || ((28 <=? n) && (n <=? 32))
  || (n =? 133) || (n =? 160).

(** [not s.strip()]: nothing is left once white space is stripped from
    both ends, that is, every character is white space. *)
Fixpoint strip_is_empty (s : string) : bool :=
  match s with
  | EmptyString => true
  | String ch rest => isspace ch && strip_is_empty rest
  end.

Section Api.
Context (E : Env).

(** Modelled from the spec: [core/database.py] ([get_session]) is not
    among the sources.  Every request is an independent unit of work: the
    handler gets a session with nothing pending, and what is still pending
    when the handler is left is dropped with the session. *)
Definition with_session {A} (handler : World -> A * World) : World -> A * World :=
  fun w =>
    let '(a, w') := handler (set_pending [] w) in
    (a, set_pending [] w').

(** [POST /chat] *)
Definition chat (request_message : string) (current_user_id : UUID)
  : World -> HTTPResult Message.t * World :=
  with_session (fun w =>
    if strip_is_empty request_message then
      (HTTPException 400 "Message cannot be empty", w)
    else
      match process_user_message E current_user_id request_message w with
      | (Returned response_message, w') => (Response response_message, w')
      | (Raised e, w') => (HTTPException 500 (str e), w')
      end).

(** [GET /conversations]: no handler of its own for exceptions, they reach
    the framework. *)
Definition get_conversation (current_user_id : UUID)
  : M ConversationResponse.t :=
  with_session (
    conversation <- get_or_create_conversation E current_user_id ;;
    messages <-
      get_recent_messages E (Conversation.id conversation) default_limit ;;
    ret (ConversationResponse.mk (Conversation.id conversation) messages
           (Conversation.updated_at conversation))).

End Api.

(** ** A concrete environment, for running the model *)

(** The k-th clock reading is [1000 + k]; the k-th identifier drawn is
    [100 + k]; the store never fails and enforces conversation
    membership; the agent answers "Hi there". *)
Definition calm : Env :=
  {| now := fun k => (1000 + Z.of_nat k)%Z;
     uuid4 := fun k => (100 + N.of_nat k)%N;
     db_fault := fun _ => None;
     process_message := fun _ _ => Returned "Hi there";
     foreign_keys := true |}.

Definition empty_store : Store := {| conversations := []; messages := [] |}.

Definition initial (s : Store) : World :=
  {| db := s; pending := []; clock_reads := 0; uuid_draws := 0;
     round_trips := 0; agent_calls := [] |}.

(** Scenario A of the spec: a new user (7) submits "Hello" and the agent
    answers; Scenario B: the same user then submits "What's next?". *)
Definition scenario_a : World :=
  Eval vm_compute in (chat calm "Hello" 7%N (initial empty_store)).2.

Definition scenario_b : World :=
  Eval vm_compute in (chat calm "What's next?" 7%N scenario_a).2.

(** As [calm], but round trip number [k] to the store fails with the text
    [msg]. *)
Definition outage (k : nat) (msg : string) : Env :=
  {| now := now calm; uuid4 := uuid4 calm;
     db_fault := fun i => if (i =? k)%nat then Some msg else None;
     process_message := process_message calm;
     foreign_keys := foreign_keys calm |}.

(** As [calm], but the agent fails with the text [msg]. *)
Definition agent_down (msg : string) : Env :=
  {| now := now calm; uuid4 := uuid4 calm; db_fault := db_fault calm;
     process_message := fun _ _ => Raised (AgentException msg);
     foreign_keys := foreign_keys calm |}.

(** As [calm], but the store does not check the conversation of a
    message. *)
Definition lax : Env :=
  {| now := now calm; uuid4 := uuid4 calm; db_fault := db_fault calm;
     process_message := process_message calm;
     foreign_keys := false |}.

(** ** Requests *)

Inductive Request :=
| PostChat (user_id : UUID) (message : string)
| GetConversations (user_id : UUID).

(** The world after one request has been served, whatever was handed
    back to its caller. *)
Definition serve (E : Env) (req : Request) (w : World) : World :=
  match req with
  | PostChat user_id message => (chat E message user_id w).2
  | GetConversations user_id => (get_conversation E user_id w).2
  end.

(** Requests served one after another, the first of the list first. *)
Definition serve_all (E : Env) (reqs : list Request) (w : World) : World :=
  foldl (fun w req => serve E req w) w reqs.

(** As [calm], but the clock stands still: every reading is 1000. *)
Definition frozen : Env :=
  {| now := fun _ => 1000%Z; uuid4 := uuid4 calm; db_fault := db_fault calm;
     process_message := process_message calm;
     foreign_keys := foreign_keys calm |}.

(** The second turn of Scenario B, taken on its own. *)
Definition scenario_b_turn : Outcome Message.t * World :=
  Eval vm_compute in process_user_message calm 7%N "What's next?" scenario_a.

(** ** Vocabulary of the statements *)

(** The conversation rows after [store_message] has assigned [t] to the
    [updated_at] of the row it loaded for [cid]; no row changes when there
    is none. *)
Definition bumped (cid : UUID) (t : datetime) (s : Store)
  : list Conversation.t :=
  match find_conversation cid s with
  | Some c =>
      (fun r => if decide (Conversation.id r = Conversation.id c)
                then Conversation.mk (Conversation.id c)
                       (Conversation.user_id c) (Conversation.created_at c) t
                else r) <$> conversations s
  | None => conversations s
  end.

(** The store once message [m] and the bump to [t] are both committed. *)
Definition stored (m : Message.t) (t : datetime) (s : Store) : Store :=
  {| conversations := bumped (Message.conversation_id m) t s;
     messages := messages s ++ [m] |}.

(** The message [store_message] builds in world [w]. *)
Definition message_at (E : Env) (w : World) (cid : UUID)
    (role content : string) : Message.t :=
  Message.mk (uuid4 E (uuid_draws w)) cid role content
    (creation_time (now E (clock_reads w)) cid (db w)).

(** The conversation [get_or_create_conversation] builds in world [w]. *)
Definition conversation_at (E : Env) (w : World) (user_id : UUID)
  : Conversation.t :=
  Conversation.mk (uuid4 E (uuid_draws w)) user_id
    (now E (clock_reads w)) (now E (S (clock_reads w))).

(** The [k]-th round trip to the store goes through. *)
Definition no_fault (E : Env) (k : nat) : bool :=
  if db_fault E k is None then true else false.

(** [store_message] reaches its commit in world [w] and the commit is
    accepted: the load of the conversation and the commit go through, and
    the identifier drawn for the message is not taken. *)
Definition store_commits (E : Env) (w : World) : bool :=
  no_fault E (round_trips w) && no_fault E (S (round_trips w))
  && negb (has_message (uuid4 E (uuid_draws w)) (db w)).

(** The store takes a message for conversation [cid]: it does not check
    the conversation, or the conversation has a row. *)
Definition admitted (E : Env) (cid : UUID) (s : Store) : bool :=
  negb (foreign_keys E) || has_conversation cid s.

(** [store_message] for conversation [cid] commits in world [w]. *)
Definition stores (E : Env) (w : World) (cid : UUID) : bool :=
  store_commits E w && admitted E cid (db w).

(** What [store_message] hands back in world [w]: the load of the
    conversation comes first, with the flush of the INSERT, then the
    commit, then the reload of the message. *)
Definition store_message_result (E : Env) (w : World) (cid : UUID)
    (role content : string) : Outcome Message.t :=
  match db_fault E (round_trips w) with
  | Some msg => Raised (OperationalError msg)
  | None =>
      if has_message (uuid4 E (uuid_draws w)) (db w)
      then Raised (IntegrityError "duplicate key")
      else if negb (admitted E cid (db w))
      then Raised (IntegrityError "foreign key violation")
      else
        match db_fault E (S (round_trips w)) with
        | Some msg => Raised (OperationalError msg)
        | None =>
            match db_fault E (S (S (round_trips w))) with
            | Some msg => Raised (OperationalError msg)
            | None => Returned (message_at E w cid role content)
            end
        end
  end.

(** What a run of [store_message] that starts with nothing pending in
    world [w] and ends with [r] in world [w'] satisfies. *)
Record store_message_post (E : Env) (cid : UUID) (role content : string)
    (w : World) (r : Outcome Message.t) (w' : World) : Prop := {
  smp_result : r = store_message_result E w cid role content;
  smp_calls : agent_calls w' = agent_calls w;
  smp_trips : round_trips w < round_trips w' <= round_trips w + 3;
  smp_draws : uuid_draws w' = S (uuid_draws w);
  smp_reads : clock_reads w < clock_reads w' <= clock_reads w + 2;
  smp_db :
    db w' =
      if stores E w cid
      then stored (message_at E w cid role content)
             (now E (S (clock_reads w))) (db w)
      else db w;
  smp_clean : stores E w cid = true -> pending w' = [];
  smp_bump_read :
    stores E w cid = true ->
    clock_reads w' =
      (if find_conversation cid (db w) is Some _ then 2 else 1)
      + clock_reads w
}.

(** [get_or_create_conversation] finds no row for the user, and its
    INSERT is committed. *)
Definition creates (E : Env) (w : World) (user_id : UUID) : bool :=
  no_fault E (round_trips w)
  && (if head (select_conversations user_id (db w)) is None then true
      else false)
  && no_fault E (S (round_trips w))
  && negb (has_conversation (uuid4 E (uuid_draws w)) (db w)).

(** The store with one more conversation row. *)
Definition with_conversation (c : Conversation.t) (s : Store) : Store :=
  {| conversations := conversations s ++ [c]; messages := messages s |}.

(** What [get_or_create_conversation] hands back in world [w]. *)
Definition get_or_create_result (E : Env) (w : World) (user_id : UUID)
  : Outcome Conversation.t :=
  match db_fault E (round_trips w) with
  | Some msg => Raised (OperationalError msg)
  | None =>
      match head (select_conversations user_id (db w)) with
      | Some c => Returned c
      | None =>
          match db_fault E (S (round_trips w)) with
          | Some msg => Raised (OperationalError msg)
          | None =>
              if has_conversation (uuid4 E (uuid_draws w)) (db w)
              then Raised (IntegrityError "duplicate key")
              else
                match db_fault E (S (S (round_trips w))) with
                | Some msg => Raised (OperationalError msg)
                | None => Returned (conversation_at E w user_id)
                end
          end
      end
  end.

(** What a run of [get_or_create_conversation] that starts with nothing
    pending in world [w] and ends with [r] in world [w'] satisfies. *)
Record get_or_create_post (E : Env) (user_id : UUID)
    (w : World) (r : Outcome Conversation.t) (w' : World) : Prop := {
  gcp_result : r = get_or_create_result E w user_id;
  gcp_calls : agent_calls w' = agent_calls w;
  gcp_trips : round_trips w < round_trips w' <= round_trips w + 3;
  gcp_reads : clock_reads w <= clock_reads w' <= clock_reads w + 2;
  gcp_db :
    db w' =
      if creates E w user_id
      then with_conversation (conversation_at E w user_id) (db w)
      else db w;
  gcp_created_reads :
    creates E w user_id = true -> clock_reads w' = 2 + clock_reads w;
  gcp_created_trips :
    creates E w user_id = true -> round_trips w' = 3 + round_trips w;
  gcp_found :
    forall c, head (select_conversations user_id (db w)) = Some c ->
    w' = tick_trip w;
  gcp_clean : forall c, r = Returned c -> pending w' = []
}.

(** The history [process_user_message] builds for conversation [cid] from
    store [s]. *)
Definition turn_history (cid : UUID) (s : Store) : list HistoryEntry :=
  to_entry <$> reverse (select_messages cid default_limit s).

(** The world right after the agent was called in world [w] for the
    conversation [cid] of [user_id]: the context query has used one round
    trip and the call is logged. *)
Definition invoked (user_id cid : UUID) (w : World) : World :=
  log_call user_id (turn_history cid (db w)) (tick_trip w).

(** The ways one run of [process_user_message] can go, by the step at
    which it ends: resolving the conversation, storing the user's
    message, loading the context, calling the agent, storing the reply. *)
Inductive turn (E : Env) (user_id : UUID) (text : string) (w : World)
  : Outcome Message.t -> World -> Prop :=
| turn_unresolved e w1 :
    get_or_create_conversation E user_id w = (Raised e, w1) ->
    turn E user_id text w (Raised e) w1
| turn_user_unstored c w1 e w2 :
    get_or_create_conversation E user_id w = (Returned c, w1) ->
    store_message E (Conversation.id c) "user" text w1 = (Raised e, w2) ->
    turn E user_id text w (Raised e) w2
| turn_context_unread c w1 m w2 msg :
    get_or_create_conversation E user_id w = (Returned c, w1) ->
    store_message E (Conversation.id c) "user" text w1 = (Returned m, w2) ->
    db_fault E (round_trips w2) = Some msg ->
    turn E user_id text w (Raised (OperationalError msg)) (tick_trip w2)
| turn_agent_failed c w1 m w2 e :
    get_or_create_conversation E user_id w = (Returned c, w1) ->
    store_message E (Conversation.id c) "user" text w1 = (Returned m, w2) ->
    db_fault E (round_trips w2) = None ->
    process_message E user_id (turn_history (Conversation.id c) (db w2))
      = Raised e ->
    turn E user_id text w (Raised e) (invoked user_id (Conversation.id c) w2)
| turn_reply_unstored c w1 m w2 reply e w3 :
    get_or_create_conversation E user_id w = (Returned c, w1) ->
    store_message E (Conversation.id c) "user" text w1 = (Returned m, w2) ->
    db_fault E (round_trips w2) = None ->
    process_message E user_id (turn_history (Conversation.id c) (db w2))
      = Returned reply ->
    store_message E (Conversation.id c) "assistant" reply
      (invoked user_id (Conversation.id c) w2) = (Raised e, w3) ->
    turn E user_id text w (Raised e) w3
| turn_done c w1 m w2 reply a w3 :
    get_or_create_conversation E user_id w = (Returned c, w1) ->
    store_message E (Conversation.id c) "user" text w1 = (Returned m, w2) ->
    db_fault E (round_trips w2) = None ->
    process_message E user_id (turn_history (Conversation.id c) (db w2))
      = Returned reply ->
    store_message E (Conversation.id c) "assistant" reply
      (invoked user_id (Conversation.id c) w2) = (Returned a, w3) ->
    turn E user_id text w (Returned a) w3.

(** A computation that never calls the agent: the call log is the same
    in whatever world it ends. *)
Definition keeps_calls {A} (m : M A) : Prop :=
  forall w, agent_calls (m w).2 = agent_calls w.

(** Chronological order: the earlier creation time first. *)
Definition created_asc : relation Message.t :=
  fun a b => (Message.created_at a <= Message.created_at b)%Z.

(** The error kinds of the spec. *)
Inductive ErrorKind :=
| ValidationError
| PersistenceError
| AgentError
| PostAgentPersistenceError.

(** Modelled from the spec: the taxonomy of its section 7 is not in the
    code; here a [POST /chat] request is classified by the step at which
    it fails: the emptiness check; resolving the conversation, storing
    the user's message or loading the context; the agent call; storing
    the reply.  [None] when no step fails. *)
Definition failure_kind (E : Env) (text : string) (user_id : UUID)
    (w : World) : option ErrorKind :=
  if strip_is_empty text then Some ValidationError
  else
    match get_or_create_conversation E user_id (set_pending [] w) with
    | (Raised _, _) => Some PersistenceError
    | (Returned c, w1) =>
        match store_message E (Conversation.id c) "user" text w1 with
        | (Raised _, _) => Some PersistenceError
        | (Returned _, w2) =>
            match db_fault E (round_trips w2) with
            | Some _ => Some PersistenceError
            | None =>
                match process_message E user_id
                        (turn_history (Conversation.id c) (db w2)) with
                | Raised _ => Some AgentError
                | Returned reply =>
                    match store_message E (Conversation.id c) "assistant"
                            reply (invoked user_id (Conversation.id c) w2)
                    with
                    | (Raised _, _) => Some PostAgentPersistenceError
                    | (Returned _, _) => None
                    end
                end
            end
        end
    end.

(** C9 as stated: what the caller of [POST /chat] receives tells the
    error kind. *)
Definition distinguishes
    (classify : HTTPResult Message.t -> option ErrorKind) : Prop :=
  forall E text user_id w,
    classify (chat E text user_id w).1 = failure_kind E text user_id w.

(** C3 as stated: within each conversation, a message stored later has a
    strictly greater creation time. *)
Definition strictly_chronological (s : Store) : Prop :=
  forall cid i j m1 m2,
    i < j ->
    messages_of cid s !! i = Some m1 ->
    messages_of cid s !! j = Some m2 ->
    (Message.created_at m1 < Message.created_at m2)%Z.

(** Successive readings of the clock strictly increase. *)
Definition clock_strict (E : Env) : Prop :=
  forall i j, i < j -> (now E i < now E j)%Z.

(** Every stored creation time, and every stored last-update time, lies
    strictly before every reading the clock has yet to give. *)
Definition messages_behind_clock (E : Env) (w : World) : Prop :=
  forall m, m ∈ messages (db w) ->
  forall k, clock_reads w <= k -> (Message.created_at m < now E k)%Z.

Definition conversations_behind_clock (E : Env) (w : World) : Prop :=
  forall c, c ∈ conversations (db w) ->
  forall k, clock_reads w <= k -> (Conversation.updated_at c < now E k)%Z.

Definition created_before : relation Message.t :=
  fun a b => (Message.created_at a < Message.created_at b)%Z.

(** The message table as a whole is in strictly increasing order of
    creation time. *)
Definition chronological (s : Store) : Prop :=
  StronglySorted created_before (messages s).

Definition timely (E : Env) (w : World) : Prop :=
  messages_behind_clock E w /\ conversations_behind_clock E w
  /\ chronological (db w).

(** What never changes in a conversation row: its identifier, its owner
    and its creation time. *)
Definition identity (c : Conversation.t) : UUID * UUID * datetime :=
  (Conversation.id c, Conversation.user_id c, Conversation.created_at c).

(** Store [s'] holds all that [s] held: the messages of [s] open the
    message table of [s'], unchanged, and the conversations of [s] open
    its conversation table, each with its identity. *)
Definition extends (s s' : Store) : Prop :=
  messages s `prefix_of` messages s' /\
  (identity <$> conversations s) `prefix_of` (identity <$> conversations s').

(** Store [s'] can come after [s]: with unique conversation identifiers
    in [s], they are unique in [s'], [s'] extends [s], and [s'] has at
    most one conversation per user when [s] has. *)
Definition evolves (s s' : Store) : Prop :=
  NoDup (Conversation.id <$> conversations s) ->
  NoDup (Conversation.id <$> conversations s') /\
  extends s s' /\
  (NoDup (Conversation.user_id <$> conversations s) ->
   NoDup (Conversation.user_id <$> conversations s')).

(** Every conversation of [s] is still at its place in [s'], with its
    identifier and a last-update time that is not earlier. *)
Definition ages (s s' : Store) : Prop :=
  forall i r, conversations s !! i = Some r ->
  exists r',
    conversations s' !! i = Some r' /\
    Conversation.id r' = Conversation.id r /\
    (Conversation.updated_at r <= Conversation.updated_at r')%Z.

(** The text is made of ASCII characters only; among these, the white
    space of [isspace] is all the white space there is. *)
Definition ascii_text (s : string) : bool :=
  forallb (fun ch => nat_of_ascii ch <? 128) (list_ascii_of_string s).

(** The user a request is made by. *)
Definition requester (req : Request) : UUID :=
  match req with
  | PostChat user_id _ => user_id
  | GetConversations user_id => user_id
  end.

(** * Natural-language dates *)

(** ** utils/date_parser.py (phase 5) *)

(** A [datetime] is taken as its UTC instant, in microseconds since the
    epoch, a [timedelta] as a number of microseconds; a naive [datetime]
    is read as UTC, as the code does.  The clock reading
    [datetime.now(timezone.utc)] is an argument of the functions. *)
Module DateParser.

#[local] Open Scope Z_scope.

(** The microseconds of one day. *)
Definition day_us : Z := 86400000000.

(** [timedelta.days]: a [timedelta] is kept normalised, with seconds and
    microseconds that are not negative, so [days] rounds down. *)
Definition days (diff : Z) : Z := diff / day_us.

(** [timedelta(days=n)] *)
Definition timedelta (n : Z) : Z := n * day_us.

(** The date of an instant, as the number of days since 1970-01-01. *)
Definition date (dt : Z) : Z := dt / day_us.

(** The day of the week of a date, Monday being 0; 1970-01-01 was a
    Thursday. *)
Definition day_of_week (d : Z) : Z := (d + 3) mod 7.

(** [dt.weekday()] *)
Definition weekday (dt : Z) : Z := day_of_week (date dt).

Definition _DAY_NAMES : list string :=
  ["monday"; "tuesday"; "wednesday"; "thursday"; "friday"; "saturday";
   "sunday"].

(** [ch.lower()] on the code points below 256. *)
Definition lower_char (ch : ascii) : ascii :=
  let n := nat_of_ascii ch in
  if ((65 <=? n) && (n <=? 90))%nat
     || ((192 <=? n) && (n <=? 222) && negb (n =? 215))%nat
  then ascii_of_nat (n + 32) else ch.

(** [s.lower()] *)
Fixpoint lower (s : string) : string :=
  match s with
  | EmptyString => EmptyString
  | String ch rest => String (lower_char ch) (lower rest)
  end.

(** [s.lstrip()], [s.rstrip()] and [s.strip()]: white space is what
    [isspace] says. *)
Fixpoint lstrip (s : string) : string :=
  match s with
  | EmptyString => EmptyString
  | String ch rest => if isspace ch then lstrip rest else s
  end.

Definition rstrip (s : string) : string := String.rev (lstrip (String.rev s)).

Definition strip (s : string) : string := rstrip (lstrip s).

(** [l.index(x)] *)
Fixpoint index (x : string) (l : list string) : option nat :=
  match l with
  | [] => None
  | y :: l' => if decide (y = x) then Some 0%nat else S <$> index x l'
  end.

(** What is left of [s] after the text [keyword] it starts with. *)
Fixpoint after (keyword s : string) : option string :=
  match keyword, s with
  | EmptyString, _ => Some s
  | String k keyword', String ch rest =>
      if decide (k = ch) then after keyword' rest else None
  | String _ _, EmptyString => None
  end.

(** [re.match] of [^keyword\s+(monday|...|sunday)$] on a text without
    white space at its end, where [$] is the end of the text: the place
    in [_DAY_NAMES] of the day matched.  No day name starts with white
    space, so [\s+] takes all the white space there is. *)
Definition match_day (keyword text_lower : string) : option nat :=
  match after keyword text_lower with
  | Some (String ch rest) =>
      if isspace ch then index (lstrip rest) _DAY_NAMES else None
  | _ => None
  end.

(** The result of [_preprocess_day_pattern]: [IsoDate d] stands for
    [result_date.strftime('%Y-%m-%d')] of a [result_date] on day [d]; the
    rendering is left out. *)
Inductive Preprocessed :=
| IsoDate (day : Z)
| Unchanged (text : string).

(** [_preprocess_day_pattern]; [now] is the clock reading it takes as
    [today].  The debug log lines are left out. *)
Definition _preprocess_day_pattern (now : Z) (text : string) : Preprocessed :=
  let text_lower := strip (lower text) in
  let today := now in
  let current_day_num := weekday today in
  match match_day "next" text_lower with
  | Some target_day_num =>
      let days_ahead := Z.of_nat target_day_num - current_day_num in
      let days_ahead :=
        if days_ahead <=? 0 then days_ahead + 7 else days_ahead in
      IsoDate (date (today + timedelta days_ahead))
  | None =>
  match match_day "this" text_lower with
  | Some target_day_num =>
      let days_diff := Z.of_nat target_day_num - current_day_num in
      IsoDate (date (today + timedelta days_diff))
  | None =>
  match match_day "on" text_lower with
  | Some target_day_num =>
      let days_ahead := Z.of_nat target_day_num - current_day_num in
      let days_ahead :=
        if days_ahead <? 0 then days_ahead + 7 else days_ahead in
      IsoDate (date (today + timedelta days_ahead))
  | None =>
  match index text_lower _DAY_NAMES with
  | Some target_day_num =>
      let days_ahead := Z.of_nat target_day_num - current_day_num in
      let days_ahead :=
        if days_ahead <? 0 then days_ahead + 7 else days_ahead in
      IsoDate (date (today + timedelta days_ahead))
  | None => Unchanged text
  end end end end.

(** [format_relative_date]; [now] is the clock reading it takes. *)
Definition format_relative_date (now dt : Z) : string :=
  let diff := dt - now in
  let days := days diff in
  if days =? 0 then "today"
  else if days =? 1 then "tomorrow"
  else if days =? -1 then "yesterday"
  else if 1 <? days then "in " +:+ pretty days +:+ " days"
  else "overdue by " +:+ pretty (Z.abs days) +:+ " days".

End DateParser.

(** * Properties *)

(** ** The scenarios of the spec, run *)

(** Scenario A: a conversation is created for the new user, the agent is
    handed the one-entry history, and both messages are stored in
    order. *)
Example scenario_a_agent_input :
  agent_calls scenario_a
  = [(7%N, [{| entry_role := "user"; entry_content := "Hello" |}])].
Proof. reflexivity. Qed.

Example scenario_a_store :
  db scenario_a
  = {| conversations := [Conversation.mk 100%N 7%N 1000%Z 1005%Z];
       messages :=
         [Message.mk 101%N 100%N "user" "Hello" 1002%Z;
          Message.mk 102%N 100%N "assistant" "Hi there" 1004%Z] |}.
Proof. reflexivity. Qed.

(** Scenario B: no second conversation, and the read view returns the
    four messages in the order they were submitted. *)
Example scenario_b_read_view :
  (get_conversation calm 7%N scenario_b).1
  = Returned
      (ConversationResponse.mk 100%N
         [Message.mk 101%N 100%N "user" "Hello" 1002%Z;
          Message.mk 102%N 100%N "assistant" "Hi there" 1004%Z;
          Message.mk 103%N 100%N "user" "What's next?" 1006%Z;
          Message.mk 104%N 100%N "assistant" "Hi there" 1008%Z]
         1009%Z).
Proof. vm_compute. reflexivity. Qed.

(** A blank message is turned away before anything is stored. *)
Example blank_message_rejected :
  chat calm "  " 7%N (initial empty_store)
  = (HTTPException 400 "Message cannot be empty", initial empty_store).
Proof. vm_compute. reflexivity. Qed.

(** When the clock stands still, creation times still tell the messages
    of a conversation apart, in the order they were stored. *)
Example frozen_clock_creation_times :
  Message.created_at <$>
    messages
      (db (serve_all frozen
             [PostChat 7%N "Hello"; PostChat 7%N "What's next?"]
             (initial empty_store)))
  = [1000; 1001; 1002; 1003]%Z.
Proof. vm_compute. reflexivity. Qed.

(** A message for a conversation that has no row: a store that enforces
    conversation membership refuses it, one that does not takes it. *)
Example orphan_message_refused :
  (store_message calm 55%N "user" "lost" (initial empty_store)).1
  = Raised (IntegrityError "foreign key violation").
Proof. reflexivity. Qed.

Example orphan_message_taken :
  (store_message lax 55%N "user" "lost" (initial empty_store)).1
  = Returned (Message.mk 100%N 55%N "user" "lost" 1000%Z).
Proof. reflexivity. Qed.

(** ** Running the monad *)

Lemma bind_run {A B} (m : M A) (f : A -> M B) w r w' :
  (x <- m ;; f x) w = (r, w') ->
  (exists a w1, m w = (Returned a, w1) /\ f a w1 = (r, w')) \/
  (exists e, m w = (Raised e, w') /\ r = Raised e).
Proof.
  unfold bind. destruct (m w) as [[a|e] w1]; intros H.
  - left. eauto.
  - right. inversion H. eauto.
Qed.

(** ** Rows and primary keys *)

Lemma has_message_false i s :
  has_message i s = false ->
  filter (fun m => Message.id m = i) (messages s) = [].
Proof.
  unfold has_message. rewrite bool_decide_eq_false, Exists_exists.
  intros H. induction (messages s) as [|m l IH]; [done|].
  rewrite filter_cons. destruct (decide (Message.id m = i)) as [Hi|Hi].
  - exfalso. apply H. exists m. split; [left|done].
  - apply IH. intros (x & Hx & Hxi). apply H. exists x. split; [by right|done].
Qed.

Lemma has_conversation_false i s :
  has_conversation i s = false ->
  filter (fun c => Conversation.id c = i) (conversations s) = [].
Proof.
  unfold has_conversation. rewrite bool_decide_eq_false, Exists_exists.
  intros H. induction (conversations s) as [|c l IH]; [done|].
  rewrite filter_cons. destruct (decide (Conversation.id c = i)) as [Hi|Hi].
  - exfalso. apply H. exists c. split; [left|done].
  - apply IH. intros (x & Hx & Hxi). apply H. exists x. split; [by right|done].
Qed.

Lemma find_message_appended m s cs :
  has_message (Message.id m) s = false ->
  find_message (Message.id m)
    {| conversations := cs; messages := messages s ++ [m] |} = Some m.
Proof.
  intros H. unfold find_message. simpl.
  rewrite filter_app, (has_message_false _ _ H). simpl.
  rewrite filter_cons, decide_True by done. done.
Qed.

Lemma find_conversation_appended c s ms :
  has_conversation (Conversation.id c) s = false ->
  find_conversation (Conversation.id c)
    {| conversations := conversations s ++ [c]; messages := ms |} = Some c.
Proof.
  intros H. unfold find_conversation. simpl.
  rewrite filter_app, (has_conversation_false _ _ H). simpl.
  rewrite filter_cons, decide_True by done. done.
Qed.

Lemma find_conversation_id i s c :
  find_conversation i s = Some c -> Conversation.id c = i.
Proof.
  unfold find_conversation. intros H.
  apply head_Some_elem_of in H. by apply list_elem_of_filter in H as [? _].
Qed.

Lemma find_conversation_elem i s c :
  find_conversation i s = Some c -> c ∈ conversations s.
Proof.
  unfold find_conversation. intros H.
  apply head_Some_elem_of in H. by apply list_elem_of_filter in H as [_ ?].
Qed.

Lemma find_conversation_None i s :
  find_conversation i s = None <->
  forall c, c ∈ conversations s -> Conversation.id c <> i.
Proof.
  unfold find_conversation. rewrite head_None. split.
  - intros H c Hc Hi.
    assert (c ∈ filter (fun c => Conversation.id c = i) (conversations s))
      as Hin by (apply list_elem_of_filter; done).
    rewrite H in Hin. by apply not_elem_of_nil in Hin.
  - intros H. induction (conversations s) as [|c l IH]; [done|].
    rewrite filter_cons, decide_False by (apply H; left).
    apply IH. intros c' Hc'. apply H. by right.
Qed.

(** ** Ordered queries *)

#[global] Instance created_desc_total : Total created_desc.
Proof. intros a b. unfold created_desc. lia. Qed.

#[global] Instance created_desc_trans : Transitive created_desc.
Proof. intros a b c. unfold created_desc. lia. Qed.

#[global] Instance updated_desc_total : Total updated_desc.
Proof. intros a b. unfold updated_desc. lia. Qed.

#[global] Instance updated_desc_trans : Transitive updated_desc.
Proof. intros a b c. unfold updated_desc. lia. Qed.

#[global] Instance created_asc_trans : Transitive created_asc.
Proof. intros a b c. unfold created_asc. lia. Qed.

Lemma newest_first_sorted (l : list Message.t) :
  StronglySorted created_desc (merge_sort created_desc l).
Proof. apply Sorted_StronglySorted; [apply _|]. apply Sorted_merge_sort, _. Qed.

Lemma select_messages_split cid limit s :
  select_messages cid limit s
    ++ drop limit (merge_sort created_desc (messages_of cid s))
  ≡ₚ messages_of cid s.
Proof.
  unfold select_messages. rewrite take_drop. apply merge_sort_Permutation.
Qed.

Lemma select_messages_sorted cid limit s :
  StronglySorted created_desc (select_messages cid limit s).
Proof.
  unfold select_messages.
  pose proof (newest_first_sorted (messages_of cid s)) as H.
  rewrite <- (take_drop limit) in H. by apply StronglySorted_app_1_l in H.
Qed.

Lemma select_messages_newest cid limit s r o :
  r ∈ select_messages cid limit s ->
  o ∈ drop limit (merge_sort created_desc (messages_of cid s)) ->
  created_asc o r.
Proof.
  unfold select_messages. intros Hr Ho.
  pose proof (newest_first_sorted (messages_of cid s)) as H.
  rewrite <- (take_drop limit) in H.
  apply (StronglySorted_app_1_elem_of _ _ _ _ _ H Hr Ho).
Qed.

Lemma select_messages_length cid limit s :
  length (select_messages cid limit s)
  = limit `min` length (messages_of cid s).
Proof.
  unfold select_messages.
  by rewrite length_take, (Permutation_length (merge_sort_Permutation _ _)).
Qed.

Lemma reverse_oldest_first (l : list Message.t) :
  StronglySorted created_desc l -> StronglySorted created_asc (reverse l).
Proof.
  intros H. apply Sorted_StronglySorted; [apply _|].
  apply StronglySorted_Sorted in H.
  apply (Sorted_reverse created_desc) in H. exact H.
Qed.

(** The one row that beats every other row comes first. *)
Lemma head_merge_sort_top {A} (R : relation A) `{!RelDecision R}
    `{!Total R} `{!Transitive R} (l : list A) (x : A) :
  x ∈ l ->
  (forall y, y ∈ l -> y = x \/ ~ R y x) ->
  head (merge_sort R l) = Some x.
Proof.
  intros Hx Htop.
  pose proof (merge_sort_Permutation R l) as Hperm.
  assert (StronglySorted R (merge_sort R l)) as Hsorted
    by (apply Sorted_StronglySorted; [done|]; by apply Sorted_merge_sort).
  destruct (merge_sort R l) as [|h tl].
  - rewrite <- Hperm in Hx. by apply not_elem_of_nil in Hx.
  - simpl. f_equal.
    assert (h ∈ l) as Hh by (rewrite <- Hperm; left).
    destruct (Htop h Hh) as [->|Hnot]; [done|].
    rewrite <- Hperm in Hx. apply elem_of_cons in Hx as [->|Hx]; [done|].
    apply StronglySorted_cons in Hsorted as [Hall _].
    rewrite Forall_forall in Hall. exfalso. by apply Hnot, Hall.
Qed.

Lemma messages_of_stored cid m t s :
  Message.conversation_id m = cid ->
  messages_of cid (stored m t s) = messages_of cid s ++ [m].
Proof.
  intros Hm. unfold messages_of, stored. simpl.
  by rewrite filter_app, filter_cons, decide_True.
Qed.

(** A message younger than all the others of its conversation closes
    the window. *)
Lemma newest_is_last cid limit s m t :
  0 < limit ->
  Message.conversation_id m = cid ->
  (forall o, o ∈ messages_of cid s -> created_before o m) ->
  last (reverse (select_messages cid limit (stored m t s))) = Some m.
Proof.
  intros Hlimit Hm Hnewest. rewrite last_reverse.
  unfold select_messages. rewrite messages_of_stored by done.
  destruct limit as [|limit]; [lia|].
  assert (head (merge_sort created_desc (messages_of cid s ++ [m])) = Some m)
    as Hhead.
  { apply (head_merge_sort_top created_desc).
    - apply elem_of_app. right. by left.
    - intros y Hy. apply elem_of_app in Hy as [Hy|Hy].
      + right. specialize (Hnewest y Hy).
        unfold created_desc, created_before in *. lia.
      + left. by apply list_elem_of_singleton in Hy. }
  destruct (merge_sort created_desc (messages_of cid s ++ [m])); done.
Qed.

(** ** The service functions, outcome by outcome *)

Section Specs.
Context (E : Env).

#[local] Arguments select_conversations : simpl never.
#[local] Arguments select_messages : simpl never.
#[local] Arguments find_conversation : simpl never.
#[local] Arguments find_message : simpl never.
#[local] Arguments has_message : simpl never.
#[local] Arguments has_conversation : simpl never.

Lemma session_exec_run {A} (q : Store -> A) w :
  session_exec E q w =
    (match db_fault E (round_trips w) with
     | Some msg => Raised (OperationalError msg)
     | None => Returned (q (db w))
     end, tick_trip w).
Proof.
  unfold session_exec, bind, round_trip.
  by destruct (db_fault E (round_trips w)).
Qed.

Lemma session_commit_run w :
  session_commit E w =
    match db_fault E (round_trips w) with
    | Some msg =>
        (Raised (OperationalError msg), set_pending [] (tick_trip w))
    | None =>
        match apply_changes (foreign_keys E) (pending w) (db w) with
        | inl s => (Returned tt, set_db s (set_pending [] (tick_trip w)))
        | inr msg => (Raised (IntegrityError msg),
                      set_pending [] (tick_trip w))
        end
    end.
Proof. done. Qed.

Lemma session_get_run i w :
  session_get E i w =
    match db_fault E (round_trips w) with
    | Some msg => (Raised (OperationalError msg), tick_trip w)
    | None =>
        match apply_changes (foreign_keys E) (pending w) (db w) with
        | inl _ => (Returned (find_conversation i (db w)), tick_trip w)
        | inr msg => (Raised (IntegrityError msg),
                      set_pending [] (tick_trip w))
        end
    end.
Proof.
  unfold session_get, bind, round_trip, session_flush.
  destruct (db_fault E (round_trips w)); [done|]. simpl.
  by destruct (apply_changes _ _ _).
Qed.

(** ** The creation time of a message *)


Lemma creation_time_later reading cid s m :
  m ∈ messages_of cid s ->
  (Message.created_at m < creation_time reading cid s)%Z.
Proof.
  unfold creation_time.
  induction (messages_of cid s) as [|o l IH]; simpl; intros Hm.
  - by apply not_elem_of_nil in Hm.
  - apply elem_of_cons in Hm as [->|Hm]; [lia|].
    specialize (IH Hm). lia.
Qed.

Lemma creation_time_behind reading cid s :
  (forall m, m ∈ messages_of cid s -> (Message.created_at m < reading)%Z) ->
  creation_time reading cid s = reading.
Proof.
  unfold creation_time.
  induction (messages_of cid s) as [|o l IH]; simpl; intros Hm; [done|].
  rewrite IH by (intros m Hin; apply Hm; by right).
  specialize (Hm o ltac:(left)). lia.
Qed.


Lemma admitted_elem cid s c :
  c ∈ conversations s -> Conversation.id c = cid -> admitted E cid s = true.
Proof.
  intros Hc Hid. unfold admitted, has_conversation.
  rewrite bool_decide_eq_true_2; [by rewrite orb_true_r|].
  apply Exists_exists. by exists c.
Qed.

Lemma store_message_spec cid role content w r w' :
  pending w = [] ->
  store_message E cid role content w = (r, w') ->
  store_message_post E cid role content w r w'.
Proof.
  intros Hp. unfold store_message, new_Message, session_refresh_message.
  unfold bind at 1 2 3 4. simpl.
  unfold bind at 1. rewrite session_get_run. simpl. rewrite Hp. simpl.
  pose proof (find_message_appended (message_at E w cid role content) (db w))
    as Hfind.
  unfold message_at in Hfind. simpl in Hfind.
  destruct (db_fault E (round_trips w)) as [msg0|] eqn:F0;
    [intros [= <- <-]; split;
     unfold store_message_result, stores, store_commits, no_fault;
     rewrite ?F0; simpl; try lia; done|].
  destruct (has_message (uuid4 E (uuid_draws w)) (db w)) eqn:Hm;
    [intros [= <- <-]; split;
     unfold store_message_result, stores, store_commits, no_fault;
     rewrite ?F0, ?Hm; simpl; rewrite ?andb_false_r; simpl; try lia; done|].
  destruct (foreign_keys E && negb (has_conversation cid (db w))) eqn:Hfk;
    [intros [= <- <-]; split;
     unfold store_message_result, stores, store_commits, no_fault, admitted;
     rewrite ?F0, ?Hm; simpl;
     destruct (foreign_keys E), (has_conversation cid (db w)); simpl in *;
     rewrite ?andb_false_r; simpl; try lia; done|].
  assert (admitted E cid (db w) = true) as Hadm
    by (unfold admitted;
        by destruct (foreign_keys E), (has_conversation cid (db w))).
  destruct (find_conversation cid (db w)) as [c|] eqn:Hc;
    [unfold bind at 1 2 3|unfold bind at 1 2]; simpl; unfold bind at 1;
    rewrite session_commit_run; simpl; rewrite ?Hm, ?Hfk; simpl;
    (destruct (db_fault E (S (round_trips w))) as [msg1|] eqn:F1;
      [intros [= <- <-]; split;
       unfold store_message_result, stores, store_commits, no_fault;
       rewrite ?F0, ?F1, ?Hm, ?Hadm; simpl; try lia; done|]);
    unfold bind; rewrite session_exec_run; simpl;
    rewrite Hfind by done;
    destruct (db_fault E (S (S (round_trips w)))) as [msg2|] eqn:F2;
    intros [= <- <-]; split;
    unfold store_message_result, stores, store_commits, no_fault,
      stored, bumped, message_at;
    rewrite ?F0, ?F1, ?F2, ?Hm, ?Hc, ?Hadm; simpl; rewrite ?Hc;
    try lia; done.
Qed.

Lemma get_recent_messages_run cid limit w :
  get_recent_messages E cid limit w =
    (match db_fault E (round_trips w) with
     | Some msg => Raised (OperationalError msg)
     | None => Returned (reverse (select_messages cid limit (db w)))
     end, tick_trip w).
Proof.
  unfold get_recent_messages, bind. rewrite session_exec_run.
  by destruct (db_fault E (round_trips w)).
Qed.

Lemma get_or_create_conversation_spec user_id w r w' :
  pending w = [] ->
  get_or_create_conversation E user_id w = (r, w') ->
  get_or_create_post E user_id w r w'.
Proof.
  intros Hp. unfold get_or_create_conversation.
  unfold bind at 1. rewrite session_exec_run.
  pose proof (find_conversation_appended (conversation_at E w user_id)
                (db w) (messages (db w))) as Hfind.
  unfold conversation_at in Hfind. simpl in Hfind.
  destruct (db_fault E (round_trips w)) as [msg0|] eqn:F0;
    [intros [= <- <-]; split;
     unfold get_or_create_result, creates, no_fault;
     rewrite ?F0; simpl; try lia; done|].
  destruct (head (select_conversations user_id (db w))) as [c|] eqn:Hh;
    [intros [= <- <-]; split;
     unfold get_or_create_result, creates, no_fault;
     rewrite ?F0, ?Hh; simpl; try lia; done|].
  unfold new_Conversation, session_refresh_conversation.
  unfold bind at 1 2 3 4 5. simpl. unfold bind at 1.
  rewrite session_commit_run. simpl. rewrite Hp. simpl.
  destruct (db_fault E (S (round_trips w))) as [msg1|] eqn:F1;
    [intros [= <- <-]; split;
     unfold get_or_create_result, creates, no_fault;
     rewrite ?F0, ?Hh, ?F1; simpl; try lia; done|].
  destruct (has_conversation (uuid4 E (uuid_draws w)) (db w)) eqn:Hm;
    [intros [= <- <-]; split;
     unfold get_or_create_result, creates, no_fault;
     rewrite ?F0, ?Hh, ?F1, ?Hm; simpl; try lia; done|].
  unfold bind. rewrite session_get_run. simpl.
  rewrite Hfind by done.
  destruct (db_fault E (S (S (round_trips w)))) as [msg2|] eqn:F2;
    intros [= <- <-]; split;
    unfold get_or_create_result, creates, no_fault, with_conversation,
      conversation_at;
    rewrite ?F0, ?Hh, ?F1, ?F2, ?Hm; simpl; try lia; done.
Qed.

(** [process_user_message] goes exactly one of the ways of [turn]. *)
Lemma process_user_message_turn user_id text w r w' :
  process_user_message E user_id text w = (r, w') <->
  turn E user_id text w r w'.
Proof.
  unfold process_user_message. split.
  - intros H.
    apply bind_run in H as [(c & w1 & H1 & H)|(e & H1 & ->)];
      [|by eapply turn_unresolved].
    apply bind_run in H as [(m & w2 & H2 & H)|(e & H2 & ->)];
      [|by eapply turn_user_unstored].
    apply bind_run in H as [(ms & w3 & H3 & H)|(e & H3 & ->)];
      rewrite get_recent_messages_run in H3;
      destruct (db_fault E (round_trips w2)) as [msg|] eqn:F;
      simplify_eq; [|by eapply turn_context_unread].
    apply bind_run in H as [(reply & w4 & H4 & H)|(e & H4 & ->)];
      unfold agent_process_message in H4; simplify_eq;
      [|by eapply turn_agent_failed].
    apply bind_run in H as [(a & w5 & H5 & H)|(e & H5 & ->)];
      [|by eapply turn_reply_unstored].
    unfold ret in H. simplify_eq. by eapply turn_done.
  - intros H. inversion H; subst; unfold bind;
      repeat match goal with
             | Heq : ?t = _ |- context [?t] => rewrite Heq
             end; try done;
      rewrite get_recent_messages_run;
      repeat match goal with
             | Heq : ?t = _ |- context [?t] => rewrite Heq
             end; try done;
      unfold agent_process_message;
      fold (turn_history (Conversation.id c) (db w2));
      repeat match goal with
             | Heq : ?t = _ |- context [?t] => rewrite Heq
             end; try done;
      fold (invoked user_id (Conversation.id c) w2);
      repeat match goal with
             | Heq : ?t = _ |- context [?t] => rewrite Heq
             end; done.
Qed.

(** ** Who calls the agent *)

Lemma keeps_calls_bind {A B} (m : M A) (f : A -> M B) :
  keeps_calls m -> (forall a, keeps_calls (f a)) -> keeps_calls (bind m f).
Proof.
  intros Hm Hf w. unfold bind. specialize (Hm w).
  destruct (m w) as [[a|e] w1]; simpl in *; [|done].
  by rewrite Hf.
Qed.

Lemma keeps_calls_ret {A} (a : A) : keeps_calls (ret a).
Proof. done. Qed.

Lemma keeps_calls_raise {A} e : keeps_calls (@raise A e).
Proof. done. Qed.

Lemma keeps_calls_utcnow : keeps_calls (utcnow E).
Proof. done. Qed.

Lemma keeps_calls_new_uuid : keeps_calls (new_uuid E).
Proof. done. Qed.

Lemma keeps_calls_round_trip : keeps_calls (round_trip E).
Proof. intros w. unfold round_trip. by destruct (db_fault E _). Qed.

Lemma keeps_calls_session_add ch : keeps_calls (session_add ch).
Proof. done. Qed.

Lemma keeps_calls_session_exec {A} (q : Store -> A) :
  keeps_calls (session_exec E q).
Proof.
  apply keeps_calls_bind; [apply keeps_calls_round_trip|]. by intros [] w.
Qed.

Lemma keeps_calls_session_commit : keeps_calls (session_commit E).
Proof.
  intros w. unfold session_commit.
  destruct (db_fault E (round_trips w)); [done|].
  by destruct (apply_changes _ _ _).
Qed.

Lemma keeps_calls_session_flush : keeps_calls (session_flush E).
Proof. intros w. unfold session_flush. by destruct (apply_changes _ _ _). Qed.

Lemma keeps_calls_session_get i : keeps_calls (session_get E i).
Proof.
  intros w. rewrite session_get_run.
  destruct (db_fault E (round_trips w)); [done|].
  by destruct (apply_changes _ _ _).
Qed.

Lemma keeps_calls_new_Message cid role content :
  keeps_calls (new_Message E cid role content).
Proof. done. Qed.

Lemma keeps_calls_run {A} (m : M A) w r w' :
  keeps_calls m -> m w = (r, w') -> agent_calls w' = agent_calls w.
Proof. intros Hm Hrun. specialize (Hm w). by rewrite Hrun in Hm. Qed.

Create HintDb calls.
#[local] Hint Resolve keeps_calls_ret keeps_calls_raise keeps_calls_utcnow
  keeps_calls_new_uuid keeps_calls_round_trip keeps_calls_session_add
  keeps_calls_session_exec keeps_calls_session_commit
  keeps_calls_session_flush keeps_calls_session_get
  keeps_calls_new_Message : calls.

Ltac solve_keeps_calls :=
  repeat first
    [ solve [auto with calls]
    | match goal with |- keeps_calls (match ?x with _ => _ end) =>
        destruct x end
    | apply keeps_calls_bind; [|intros ?] ].

Lemma keeps_calls_get_or_create_conversation user_id :
  keeps_calls (get_or_create_conversation E user_id).
Proof.
  unfold get_or_create_conversation, new_Conversation,
    session_refresh_conversation.
  solve_keeps_calls.
Qed.

Lemma keeps_calls_store_message cid role content :
  keeps_calls (store_message E cid role content).
Proof.
  unfold store_message, session_refresh_message.
  solve_keeps_calls.
Qed.

(** What is known once [store_message] has returned. *)
Lemma store_message_returned cid role content w m w' :
  pending w = [] ->
  store_message E cid role content w = (Returned m, w') ->
  m = message_at E w cid role content /\
  db w' = stored m (now E (S (clock_reads w))) (db w) /\
  has_message (Message.id m) (db w) = false /\
  pending w' = [] /\
  clock_reads w < clock_reads w'.
Proof.
  intros Hp Hrun.
  destruct (store_message_spec _ _ _ _ _ _ Hp Hrun)
    as [Hr _ _ _ Hreads Hdb Hclean _].
  unfold store_message_result in Hr.
  unfold stores, store_commits, no_fault in *.
  destruct (db_fault E (round_trips w)); [done|].
  destruct (has_message _ _) eqn:Hfree; [done|].
  destruct (admitted E cid (db w)); [|done]. simpl in *.
  destruct (db_fault E (S (round_trips w))); [done|].
  destruct (db_fault E (S (S (round_trips w)))); [done|].
  injection Hr as ->. repeat split; try done; [by apply Hclean|lia].
Qed.

(** ** The bump of [updated_at] *)

Lemma bumped_rows cid t s c c' :
  find_conversation cid s = Some c ->
  c' ∈ bumped cid t s ->
  (Conversation.id c' = cid /\
   c' = Conversation.mk cid (Conversation.user_id c)
          (Conversation.created_at c) t) \/
  (Conversation.id c' <> cid /\ c' ∈ conversations s).
Proof.
  intros Hc. unfold bumped. rewrite Hc.
  pose proof (find_conversation_id _ _ _ Hc) as Hid.
  rewrite list_elem_of_fmap. intros (r & -> & Hr).
  destruct (decide (Conversation.id r = Conversation.id c)) as [Heq|Hne].
  - left. simpl. by rewrite Hid.
  - right. split; [congruence|done].
Qed.

Lemma find_conversation_bumped cid t s c :
  find_conversation cid s = Some c ->
  find_conversation cid
    {| conversations := bumped cid t s; messages := messages s |}
  = Some (Conversation.mk cid (Conversation.user_id c)
            (Conversation.created_at c) t).
Proof.
  intros Hc. pose proof (find_conversation_id _ _ _ Hc) as Hid.
  unfold bumped. rewrite Hc. revert Hc. unfold find_conversation. simpl.
  induction (conversations s) as [|r l IH]; [done|].
  rewrite filter_cons. simpl.
  destruct (decide (Conversation.id r = cid)) as [Hr|Hr].
  - simpl. intros [= ->]. rewrite decide_True by done.
    rewrite filter_cons. simpl. rewrite decide_True by done.
    simpl. by rewrite Hid.
  - intros Hc. rewrite decide_False by congruence.
    rewrite filter_cons, decide_False by done. by apply IH.
Qed.

(** ** Resolving the conversation of a user *)

Lemma select_conversations_none user_id s :
  head (select_conversations user_id s) = None ->
  filter (fun c => Conversation.user_id c = user_id) (conversations s) = [].
Proof.
  rewrite head_None. unfold select_conversations. intros H.
  apply Permutation_nil_r. rewrite <- H. symmetry.
  apply merge_sort_Permutation.
Qed.

Lemma select_conversations_created user_id s c :
  Conversation.user_id c = user_id ->
  head (select_conversations user_id s) = None ->
  select_conversations user_id (with_conversation c s) = [c].
Proof.
  intros Hu Hnone. apply select_conversations_none in Hnone.
  unfold select_conversations, with_conversation. simpl.
  rewrite filter_app, Hnone, filter_cons, decide_True by done. done.
Qed.

(** Once the function has returned a conversation, that conversation is
    the first row of the user's query, and stays so for the next call. *)
Lemma get_or_create_conversation_resolved user_id w c w' :
  pending w = [] ->
  get_or_create_conversation E user_id w = (Returned c, w') ->
  head (select_conversations user_id (db w')) = Some c /\ pending w' = [].
Proof.
  intros Hp Hrun.
  destruct (get_or_create_conversation_spec _ _ _ _ Hp Hrun)
    as [Hr _ _ _ Hdb _ _ _ Hclean].
  split; [|by eapply Hclean]. rewrite Hdb. clear Hdb Hclean Hrun.
  unfold get_or_create_result in Hr. unfold creates, no_fault.
  destruct (db_fault E (round_trips w)); [done|].
  destruct (head (select_conversations user_id (db w))) as [c0|] eqn:Hh;
    simpl; [by simplify_eq|].
  destruct (db_fault E (S (round_trips w))); [done|].
  destruct (has_conversation _ _); [done|]. simpl.
  destruct (db_fault E (S (S (round_trips w)))); [done|].
  injection Hr as ->. by rewrite select_conversations_created.
Qed.

Lemma select_conversations_no_rows user_id s :
  (forall c, c ∈ conversations s -> Conversation.user_id c <> user_id) ->
  head (select_conversations user_id s) = None.
Proof.
  intros H. unfold select_conversations.
  replace (filter _ (conversations s)) with (@nil Conversation.t); [done|].
  symmetry. induction (conversations s) as [|c l IH]; [done|].
  rewrite filter_cons, decide_False by (apply H; left).
  apply IH. intros c' Hc'. apply H. by right.
Qed.

(** ** Primary keys *)

Lemma find_conversation_unique s c :
  NoDup (Conversation.id <$> conversations s) ->
  c ∈ conversations s ->
  find_conversation (Conversation.id c) s = Some c.
Proof.
  unfold find_conversation.
  induction (conversations s) as [|x l IH]; intros Hnd Hc.
  - by apply not_elem_of_nil in Hc.
  - rewrite fmap_cons in Hnd. apply NoDup_cons in Hnd as [Hx Hnd].
    rewrite filter_cons. apply elem_of_cons in Hc as [->|Hc].
    + by rewrite decide_True.
    + rewrite decide_False; [by apply IH|].
      intros Heq. apply Hx. rewrite Heq. by apply list_elem_of_fmap_2.
Qed.

Lemma has_conversation_fresh i s :
  has_conversation i s = false -> i ∉ Conversation.id <$> conversations s.
Proof.
  unfold has_conversation. rewrite bool_decide_eq_false, Exists_exists.
  intros H Hin. apply list_elem_of_fmap in Hin as (c & -> & Hc). eauto.
Qed.

Lemma get_or_create_conversation_unique user_id w r w' :
  pending w = [] ->
  NoDup (Conversation.id <$> conversations (db w)) ->
  get_or_create_conversation E user_id w = (r, w') ->
  NoDup (Conversation.id <$> conversations (db w')).
Proof.
  intros Hp Hnd Hrun.
  destruct (get_or_create_conversation_spec _ _ _ _ Hp Hrun)
    as [_ _ _ _ Hdb _ _ _ _].
  rewrite Hdb. unfold creates.
  destruct (has_conversation (uuid4 E (uuid_draws w)) (db w)) eqn:Hfree;
    [by rewrite andb_false_r|].
  destruct (_ && _ && _); simpl; [|done].
  rewrite fmap_app. apply NoDup_app. split; [done|]. split.
  - intros i Hi Hnew. apply list_elem_of_singleton in Hnew as ->.
    by apply has_conversation_fresh in Hfree.
  - apply NoDup_singleton.
Qed.

(** After the bump, the bumped conversation is the first row of its
    user's query when its new [updated_at] beats every stored one. *)
Lemma select_conversations_bumped user_id t s ms c :
  NoDup (Conversation.id <$> conversations s) ->
  c ∈ conversations s ->
  Conversation.user_id c = user_id ->
  (forall c0, c0 ∈ conversations s -> (Conversation.updated_at c0 < t)%Z) ->
  head (select_conversations user_id
          {| conversations := bumped (Conversation.id c) t s;
             messages := ms |})
  = Some (Conversation.mk (Conversation.id c) user_id
            (Conversation.created_at c) t).
Proof.
  intros Hnd Hc Hu Hold.
  pose proof (find_conversation_unique s c Hnd Hc) as Hfind.
  unfold select_conversations. simpl.
  apply (head_merge_sort_top updated_desc).
  - apply list_elem_of_filter. split; [done|].
    unfold bumped. rewrite Hfind. apply list_elem_of_fmap.
    exists c. split; [|done]. rewrite decide_True by done. by rewrite Hu.
  - intros y Hy. apply list_elem_of_filter in Hy as [_ Hy].
    destruct (bumped_rows _ _ _ _ _ Hfind Hy) as [[_ ->]|[_ Hin]].
    + left. by rewrite Hu.
    + right. specialize (Hold y Hin). unfold updated_desc. simpl. lia.
Qed.

(** ** The endpoints, unfolded *)

Lemma get_conversation_run user_id w :
  get_conversation E user_id w =
    match get_or_create_conversation E user_id (set_pending [] w) with
    | (Returned c, w1) =>
        (match db_fault E (round_trips w1) with
         | Some msg => Raised (OperationalError msg)
         | None =>
             Returned
               (ConversationResponse.mk (Conversation.id c)
                  (reverse (select_messages (Conversation.id c)
                              default_limit (db w1)))
                  (Conversation.updated_at c))
         end, set_pending [] (tick_trip w1))
    | (Raised e, w1) => (Raised e, set_pending [] w1)
    end.
Proof.
  unfold get_conversation, with_session. unfold bind at 1.
  destruct (get_or_create_conversation E user_id (set_pending [] w))
    as [[c|e] w1]; [|done].
  unfold bind. rewrite get_recent_messages_run.
  by destruct (db_fault E (round_trips w1)).
Qed.

Lemma chat_run text user_id w :
  chat E text user_id w =
    if strip_is_empty text
    then (HTTPException 400 "Message cannot be empty", set_pending [] w)
    else
      match process_user_message E user_id text (set_pending [] w) with
      | (Returned m, w') => (Response m, set_pending [] w')
      | (Raised e, w') => (HTTPException 500 (str e), set_pending [] w')
      end.
Proof.
  unfold chat, with_session. destruct (strip_is_empty text); [done|].
  by destruct (process_user_message E user_id text (set_pending [] w))
    as [[m|e] w'].
Qed.

(** ** Time stamps and the clock *)

Lemma StronglySorted_filter {A} (R : relation A) (P : A -> Prop)
    `{forall x, Decision (P x)} (l : list A) :
  StronglySorted R l -> StronglySorted R (filter P l).
Proof.
  induction 1 as [|x l Hl IH Hx]; [constructor|].
  rewrite filter_cons. destruct (decide (P x)); [|done].
  constructor; [done|]. rewrite Forall_forall in Hx |- *.
  intros y Hy. apply list_elem_of_filter in Hy as [_ Hy]. by apply Hx.
Qed.

Lemma StronglySorted_lookup {A} (R : relation A) (l : list A) i j x y :
  StronglySorted R l -> i < j ->
  l !! i = Some x -> l !! j = Some y -> R x y.
Proof.
  intros Hl. revert i j. induction Hl as [|z l Hl IH Hz]; intros i j Hij.
  - by rewrite lookup_nil.
  - destruct i as [|i]; destruct j as [|j]; try lia; simpl.
    + intros [= ->] Hy. rewrite Forall_forall in Hz. apply Hz.
      by eapply list_elem_of_lookup_2.
    + apply IH. lia.
Qed.

Lemma chronological_strictly s :
  chronological s -> strictly_chronological s.
Proof.
  intros Hs cid i j m1 m2 Hij H1 H2.
  apply (StronglySorted_lookup created_before (messages_of cid s) i j);
    try done.
  by apply StronglySorted_filter.
Qed.

Lemma timely_later w w' :
  db w' = db w -> clock_reads w <= clock_reads w' ->
  timely E w -> timely E w'.
Proof.
  intros Hdb Hreads (Hm & Hc & Hs). unfold timely, messages_behind_clock,
    conversations_behind_clock. rewrite Hdb. repeat split; [| |done].
  - intros m Hin k Hk. apply Hm; [done|lia].
  - intros c Hin k Hk. apply Hc; [done|lia].
Qed.

Lemma store_message_timely cid role content w r w' :
  clock_strict E -> pending w = [] -> timely E w ->
  store_message E cid role content w = (r, w') ->
  timely E w'.
Proof.
  intros Hclock Hp Ht Hrun.
  destruct (store_message_spec _ _ _ _ _ _ Hp Hrun)
    as [_ _ _ _ Hreads Hdb _ Hbump].
  destruct (stores E w cid); [|apply (timely_later w); [done|lia|done]].
  specialize (Hbump eq_refl). destruct Ht as (Hm & Hc & Hs).
  assert (creation_time (now E (clock_reads w)) cid (db w)
          = now E (clock_reads w)) as Hct.
  { apply creation_time_behind. intros m Hin. apply Hm; [|lia].
    unfold messages_of in Hin. by apply list_elem_of_filter in Hin as [_ ?]. }
  unfold timely, messages_behind_clock, conversations_behind_clock,
    chronological.
  rewrite Hdb. unfold stored, message_at. simpl. rewrite Hct. repeat split.
  - intros m Hin k Hk. apply elem_of_app in Hin as [Hin|Hin].
    + apply Hm; [done|lia].
    + apply list_elem_of_singleton in Hin as ->. simpl. apply Hclock. lia.
  - intros c Hin k Hk.
    destruct (find_conversation cid (db w)) as [c0|] eqn:Hfind.
    + destruct (bumped_rows _ _ _ _ _ Hfind Hin) as [[_ ->]|[_ Hold]].
      * simpl. apply Hclock. lia.
      * apply Hc; [done|lia].
    + unfold bumped in Hin. rewrite Hfind in Hin. apply Hc; [done|lia].
  - apply StronglySorted_app_2; [|done|repeat constructor].
    intros m1 m2 H1 H2. apply list_elem_of_singleton in H2 as ->.
    unfold created_before. simpl. by apply Hm.
Qed.

Lemma get_or_create_conversation_timely user_id w r w' :
  clock_strict E -> pending w = [] -> timely E w ->
  get_or_create_conversation E user_id w = (r, w') ->
  timely E w'.
Proof.
  intros Hclock Hp Ht Hrun.
  destruct (get_or_create_conversation_spec _ _ _ _ Hp Hrun)
    as [_ _ _ Hreads Hdb Hcreated _ _ _].
  destruct (creates E w user_id);
    [|apply (timely_later w); [done|lia|done]].
  specialize (Hcreated eq_refl). destruct Ht as (Hm & Hc & Hs).
  unfold timely, messages_behind_clock, conversations_behind_clock,
    chronological.
  rewrite Hdb. unfold with_conversation, conversation_at. simpl.
  repeat split; [| |done].
  - intros m Hin k Hk. apply Hm; [done|lia].
  - intros c Hin k Hk. apply elem_of_app in Hin as [Hin|Hin].
    + apply Hc; [done|lia].
    + apply list_elem_of_singleton in Hin as ->. simpl. apply Hclock. lia.
Qed.

Lemma turn_timely user_id text w r w' :
  clock_strict E -> pending w = [] -> timely E w ->
  turn E user_id text w r w' ->
  timely E w'.
Proof.
  intros Hclock Hp Ht Hturn.
  destruct Hturn as
    [ e w1 H1 | c w1 e w2 H1 H2 | c w1 m w2 msg H1 H2 F
    | c w1 m w2 e H1 H2 F Ha | c w1 m w2 reply e w3 H1 H2 F Ha H3
    | c w1 m w2 reply a w3 H1 H2 F Ha H3 ].
  1: by eapply get_or_create_conversation_timely.
  all: pose proof (get_or_create_conversation_timely _ _ _ _
                     Hclock Hp Ht H1) as Ht1;
    pose proof (gcp_clean _ _ _ _ _
                  (get_or_create_conversation_spec _ _ _ _ Hp H1)
                  _ eq_refl) as Hp1;
    pose proof (store_message_timely _ _ _ _ _ _ Hclock Hp1 Ht1 H2) as Ht2.
  1: done.
  all: destruct (store_message_returned _ _ _ _ _ _ Hp1 H2)
         as (_ & _ & _ & Hp2 & _).
  1-2: apply (timely_later w2); [done|simpl; lia|done].
  all: refine (store_message_timely _ _ _ _ _ _ Hclock _ _ H3);
    [done|apply (timely_later w2); [done|simpl; lia|done]].
Qed.

Lemma serve_timely req w :
  clock_strict E -> timely E w -> timely E (serve E req w).
Proof.
  intros Hclock Ht.
  assert (timely E (set_pending [] w)) as Ht0
    by (apply (timely_later w); [done|simpl; lia|done]).
  destruct req as [user_id text|user_id]; simpl.
  - rewrite chat_run. destruct (strip_is_empty text); [done|].
    destruct (process_user_message E user_id text (set_pending [] w))
      as [r w'] eqn:Hrun.
    apply process_user_message_turn in Hrun.
    apply turn_timely in Hrun; try done.
    destruct r; (apply (timely_later w'); [done|simpl; lia|done]).
  - rewrite get_conversation_run.
    destruct (get_or_create_conversation E user_id (set_pending [] w))
      as [r w'] eqn:Hrun.
    apply get_or_create_conversation_timely in Hrun; try done.
    destruct r; (apply (timely_later w'); [done|simpl; lia|done]).
Qed.

Lemma serve_all_timely reqs w :
  clock_strict E -> timely E w -> timely E (serve_all E reqs w).
Proof.
  intros Hclock. revert w.
  induction reqs as [|req reqs IH]; intros w Ht; [done|].
  simpl. apply IH. by apply serve_timely.
Qed.

(** ** What the agent is given *)

Lemma get_or_create_conversation_messages user_id w r w' :
  pending w = [] ->
  get_or_create_conversation E user_id w = (r, w') ->
  messages (db w') = messages (db w).
Proof.
  intros Hp Hrun.
  destruct (get_or_create_conversation_spec _ _ _ _ Hp Hrun)
    as [_ _ _ _ Hdb _ _ _ _].
  rewrite Hdb. by destruct (creates E w user_id).
Qed.

(** Either the agent is not called in the turn, or the conversation was
    resolved, the user's message was stored and returned, the context was
    read, and the agent was called once with the history built from the
    store at that point. *)
Lemma turn_context user_id text w r w' :
  turn E user_id text w r w' ->
  agent_calls w' = agent_calls w \/
  exists c w1 m w2,
    get_or_create_conversation E user_id w = (Returned c, w1) /\
    store_message E (Conversation.id c) "user" text w1 = (Returned m, w2) /\
    db_fault E (round_trips w2) = None /\
    agent_calls w'
      = agent_calls w
        ++ [(user_id, turn_history (Conversation.id c) (db w2))].
Proof.
  intros Hturn.
  destruct Hturn as
    [ e w1 H1 | c w1 e w2 H1 H2 | c w1 m w2 msg H1 H2 F
    | c w1 m w2 e H1 H2 F Ha | c w1 m w2 reply e w3 H1 H2 F Ha H3
    | c w1 m w2 reply a w3 H1 H2 F Ha H3 ].
  1-3: left.
  4-6: right; exists c, w1, m, w2; repeat split; try done.
  all: pose proof (keeps_calls_run _ _ _ _
                     (keeps_calls_get_or_create_conversation user_id) H1)
         as C1; try done.
  all: pose proof (keeps_calls_run _ _ _ _
                     (keeps_calls_store_message _ _ _) H2) as C2.
  1-2: simpl; congruence.
  - simpl. congruence.
  - pose proof (keeps_calls_run _ _ _ _
                  (keeps_calls_store_message _ _ _) H3) as C3.
    rewrite C3. simpl. congruence.
  - pose proof (keeps_calls_run _ _ _ _
                  (keeps_calls_store_message _ _ _) H3) as C3.
    rewrite C3. simpl. congruence.
Qed.

(** A request that fails at the agent call, step by step. *)
Lemma failure_kind_agent text user_id w :
  failure_kind E text user_id w = Some AgentError ->
  exists c w1 m w2 e,
    get_or_create_conversation E user_id (set_pending [] w)
      = (Returned c, w1) /\
    store_message E (Conversation.id c) "user" text w1 = (Returned m, w2) /\
    process_message E user_id (turn_history (Conversation.id c) (db w2))
      = Raised e /\
    chat E text user_id w
      = (HTTPException 500 (str e),
         set_pending [] (invoked user_id (Conversation.id c) w2)).
Proof.
  unfold failure_kind. rewrite chat_run.
  destruct (strip_is_empty text); [done|].
  destruct (get_or_create_conversation E user_id (set_pending [] w))
    as [[c|?] w1] eqn:H1; [|done].
  destruct (store_message E (Conversation.id c) "user" text w1)
    as [[m|?] w2] eqn:H2; [|done].
  destruct (db_fault E (round_trips w2)) eqn:F; [done|].
  destruct (process_message E user_id
              (turn_history (Conversation.id c) (db w2)))
    as [reply|e] eqn:Ha.
  { by destruct (store_message E (Conversation.id c) "assistant" reply
                   (invoked user_id (Conversation.id c) w2)) as [[?|?] ?]. }
  intros _. exists c, w1, m, w2, e. repeat split; try done.
  by rewrite (proj2 (process_user_message_turn _ _ _ _ _)
                (turn_agent_failed E _ _ _ c w1 m w2 e H1 H2 F Ha)).
Qed.

End Specs.

(** ** What the services keep and what they write *)

Section Further.
Context (E : Env).

#[local] Arguments select_conversations : simpl never.
#[local] Arguments select_messages : simpl never.
#[local] Arguments find_conversation : simpl never.
#[local] Arguments find_message : simpl never.
#[local] Arguments has_message : simpl never.
#[local] Arguments has_conversation : simpl never.

(** ** What the queries return *)

Lemma select_messages_elem cid limit s m :
  m ∈ select_messages cid limit s ->
  m ∈ messages s /\ Message.conversation_id m = cid.
Proof.
  unfold select_messages, messages_of. intros Hm.
  apply elem_of_take in Hm as (i & Hi & _).
  apply list_elem_of_lookup_2 in Hi.
  rewrite merge_sort_Permutation in Hi.
  by apply list_elem_of_filter in Hi as [? ?].
Qed.

Lemma select_conversations_elem user_id s c :
  c ∈ select_conversations user_id s <->
  c ∈ conversations s /\ Conversation.user_id c = user_id.
Proof.
  unfold select_conversations.
  rewrite merge_sort_Permutation, list_elem_of_filter. tauto.
Qed.

Lemma select_conversations_head_latest user_id s c c' :
  head (select_conversations user_id s) = Some c ->
  c' ∈ conversations s -> Conversation.user_id c' = user_id ->
  (Conversation.updated_at c' <= Conversation.updated_at c)%Z.
Proof.
  intros Hhead Hc' Hu.
  assert (c' ∈ select_conversations user_id s) as Hin
    by (by apply select_conversations_elem).
  assert (StronglySorted updated_desc (select_conversations user_id s))
    as Hsorted.
  { apply Sorted_StronglySorted; [apply _|].
    unfold select_conversations. apply Sorted_merge_sort, _. }
  apply head_Some in Hhead as [rest Hrows]. rewrite Hrows in Hin, Hsorted.
  apply elem_of_cons in Hin as [->|Hin]; [lia|].
  apply StronglySorted_cons in Hsorted as [Hall _].
  rewrite Forall_forall in Hall. by apply Hall.
Qed.

(** ** A store in chronological order *)

Lemma strictly_sorted_times (l : list Message.t) x y :
  StronglySorted created_before l -> x ∈ l -> y ∈ l ->
  Message.created_at x = Message.created_at y -> x = y.
Proof.
  intros Hl Hx Hy Heq.
  apply list_elem_of_lookup_1 in Hx as [i Hi].
  apply list_elem_of_lookup_1 in Hy as [j Hj].
  destruct (lt_eq_lt_dec i j) as [[Hlt| ->]|Hlt].
  - pose proof (StronglySorted_lookup created_before l i j x y Hl Hlt Hi Hj)
      as H. unfold created_before in H. lia.
  - congruence.
  - pose proof (StronglySorted_lookup created_before l j i y x Hl Hlt Hj Hi)
      as H. unfold created_before in H. lia.
Qed.

(** Over rows in strictly increasing order of creation time, "newest
    first" has one answer: the rows in reverse. *)
Lemma merge_sort_chronological (l : list Message.t) :
  StronglySorted created_before l -> merge_sort created_desc l = reverse l.
Proof.
  intros Hl. apply (Sorted_unique_strong created_desc).
  - intros x1 x2 H1 H2 R12 R21. apply (strictly_sorted_times l); [done|..].
    + by rewrite merge_sort_Permutation in H1.
    + by rewrite elem_of_reverse in H2.
    + unfold created_desc in *. lia.
  - apply Sorted_merge_sort, _.
  - apply StronglySorted_Sorted in Hl.
    apply (Sorted_reverse created_before) in Hl.
    rewrite <- (list_fmap_id (reverse l)).
    eapply (Sorted_fmap id); [|exact Hl].
    intros x y. unfold flip, created_before, created_desc. simpl. lia.
  - by rewrite merge_sort_Permutation, reverse_Permutation.
Qed.

Lemma select_messages_chronological cid limit s :
  chronological s ->
  reverse (select_messages cid limit s)
  = drop (length (messages_of cid s) - limit) (messages_of cid s).
Proof.
  intros Hs. unfold select_messages.
  rewrite merge_sort_chronological by (by apply StronglySorted_filter).
  by rewrite reverse_take, length_reverse, reverse_involutive.
Qed.

Lemma select_conversations_single user_id s c :
  c ∈ conversations s ->
  Conversation.user_id c = user_id ->
  (forall c', c' ∈ conversations s -> Conversation.user_id c' = user_id ->
     c' = c) ->
  head (select_conversations user_id s) = Some c.
Proof.
  intros Hc Hu Hone. unfold select_conversations.
  apply (head_merge_sort_top updated_desc).
  - by apply list_elem_of_filter.
  - intros y Hy. apply list_elem_of_filter in Hy as [Hyu Hy]. left. auto.
Qed.

(** ** What [store_message] writes *)

Lemma bumped_ids cid t s :
  Conversation.id <$> bumped cid t s = Conversation.id <$> conversations s.
Proof.
  unfold bumped. destruct (find_conversation cid s) as [c|]; [|done].
  rewrite <- list_fmap_compose. apply list_fmap_ext. intros i r _. simpl.
  by destruct (decide (Conversation.id r = Conversation.id c)).
Qed.

Lemma bumped_length cid t s :
  length (bumped cid t s) = length (conversations s).
Proof.
  rewrite <- (length_fmap Conversation.id), bumped_ids.
  apply length_fmap.
Qed.

Lemma bumped_other_rows cid t s i r :
  conversations s !! i = Some r -> Conversation.id r <> cid ->
  bumped cid t s !! i = Some r.
Proof.
  intros Hr Hne. unfold bumped.
  destruct (find_conversation cid s) as [c|] eqn:Hc; [|done].
  apply find_conversation_id in Hc.
  rewrite list_lookup_fmap, Hr. simpl.
  by rewrite decide_False by congruence.
Qed.

Lemma store_message_messages cid role content w r w' :
  pending w = [] ->
  store_message E cid role content w = (r, w') ->
  messages (db w')
  = messages (db w)
    ++ (if stores E w cid then [message_at E w cid role content] else []).
Proof.
  intros Hp Hrun.
  destruct (store_message_spec E _ _ _ _ _ _ Hp Hrun)
    as [_ _ _ _ _ Hdb _ _].
  rewrite Hdb. destruct (stores E w cid); simpl; [done|].
  by rewrite app_nil_r.
Qed.

Lemma store_message_conversations cid role content w r w' :
  pending w = [] ->
  store_message E cid role content w = (r, w') ->
  conversations (db w')
  = (if stores E w cid
     then bumped cid (now E (S (clock_reads w))) (db w)
     else conversations (db w)).
Proof.
  intros Hp Hrun.
  destruct (store_message_spec E _ _ _ _ _ _ Hp Hrun)
    as [_ _ _ _ _ Hdb _ _].
  rewrite Hdb. by destruct (stores E w cid).
Qed.

(** ** What a run keeps *)

Lemma identity_ids (l : list Conversation.t) :
  Conversation.id <$> l = (fun p => p.1.1) <$> (identity <$> l).
Proof. by rewrite <- list_fmap_compose. Qed.

Lemma identity_user_ids (l : list Conversation.t) :
  Conversation.user_id <$> l = (fun p => p.1.2) <$> (identity <$> l).
Proof. by rewrite <- list_fmap_compose. Qed.

Lemma bumped_identity cid t s :
  NoDup (Conversation.id <$> conversations s) ->
  identity <$> bumped cid t s = identity <$> conversations s.
Proof.
  intros Hnd. unfold bumped.
  destruct (find_conversation cid s) as [c|] eqn:Hc; [|done].
  rewrite <- list_fmap_compose. apply list_fmap_ext. intros i r Hr. simpl.
  destruct (decide (Conversation.id r = Conversation.id c)) as [Heq|];
    [|done].
  apply list_elem_of_lookup_2 in Hr.
  pose proof (find_conversation_unique s r Hnd Hr) as Hfr.
  pose proof (find_conversation_unique s c Hnd
                (find_conversation_elem _ _ _ Hc)) as Hfc.
  rewrite Heq in Hfr. assert (r = c) as -> by congruence. done.
Qed.

#[local] Instance extends_refl : Reflexive extends.
Proof. by intros s. Qed.

#[local] Instance extends_trans : Transitive extends.
Proof.
  intros s1 s2 s3 [M12 C12] [M23 C23]. split; by etrans.
Qed.

#[local] Instance evolves_refl : Reflexive evolves.
Proof. by intros s Hnd. Qed.

#[local] Instance evolves_trans : Transitive evolves.
Proof.
  intros s1 s2 s3 H12 H23 Hnd.
  destruct (H12 Hnd) as (Hnd2 & X12 & U12).
  destruct (H23 Hnd2) as (Hnd3 & X23 & U23).
  split; [done|split; [by etrans|auto]].
Qed.

Lemma store_message_evolves cid role content w r w' :
  pending w = [] ->
  store_message E cid role content w = (r, w') ->
  evolves (db w) (db w').
Proof.
  intros Hp Hrun Hnd.
  pose proof (store_message_messages _ _ _ _ _ _ Hp Hrun) as Hm.
  pose proof (store_message_conversations _ _ _ _ _ _ Hp Hrun) as Hc.
  assert (identity <$> conversations (db w')
          = identity <$> conversations (db w)) as Hi.
  { rewrite Hc. destruct (stores E w cid); [|done].
    by apply bumped_identity. }
  rewrite !identity_ids, !identity_user_ids, Hi in *.
  repeat split; try done.
  - rewrite Hm. by apply prefix_app_r.
  - by rewrite Hi.
Qed.

Lemma get_or_create_conversation_conversations user_id w r w' :
  pending w = [] ->
  get_or_create_conversation E user_id w = (r, w') ->
  conversations (db w')
  = conversations (db w)
    ++ (if creates E w user_id then [conversation_at E w user_id] else []).
Proof.
  intros Hp Hrun.
  destruct (get_or_create_conversation_spec E _ _ _ _ Hp Hrun)
    as [_ _ _ _ Hdb _ _ _ _].
  rewrite Hdb. destruct (creates E w user_id); simpl; [done|].
  by rewrite app_nil_r.
Qed.

Lemma creates_first user_id w :
  creates E w user_id = true ->
  user_id ∉ Conversation.user_id <$> conversations (db w).
Proof.
  unfold creates. intros H Hin.
  destruct (head (select_conversations user_id (db w))) eqn:Hhead;
    [by rewrite andb_false_r in H|].
  apply select_conversations_none in Hhead.
  apply list_elem_of_fmap in Hin as (c & Hu & Hc).
  assert (c ∈ filter (fun c => Conversation.user_id c = user_id)
                (conversations (db w))) as Hf
    by (by apply list_elem_of_filter).
  rewrite Hhead in Hf. by apply not_elem_of_nil in Hf.
Qed.

Lemma get_or_create_conversation_evolves user_id w r w' :
  pending w = [] ->
  get_or_create_conversation E user_id w = (r, w') ->
  evolves (db w) (db w').
Proof.
  intros Hp Hrun Hnd.
  pose proof (get_or_create_conversation_messages _ _ _ _ _ Hp Hrun) as Hm.
  pose proof (get_or_create_conversation_conversations _ _ _ _ Hp Hrun)
    as Hc.
  split; [by eapply get_or_create_conversation_unique|].
  split; [split|].
  - by rewrite Hm.
  - rewrite Hc, fmap_app. by apply prefix_app_r.
  - intros Hu. rewrite Hc.
    destruct (creates E w user_id) eqn:Hcr; [|by rewrite app_nil_r].
    rewrite fmap_app. apply NoDup_app. split; [done|]. split.
    + intros u Hin Hnew. apply list_elem_of_singleton in Hnew as ->.
      by apply creates_first in Hcr.
    + apply NoDup_singleton.
Qed.

Ltac turn_cases Hturn :=
  destruct Hturn as
    [ e w1 H1 | c w1 e w2 H1 H2 | c w1 m w2 msg H1 H2 F
    | c w1 m w2 e H1 H2 F Ha | c w1 m w2 reply e w3 H1 H2 F Ha H3
    | c w1 m w2 reply a w3 H1 H2 F Ha H3 ].

Lemma turn_evolves user_id text w r w' :
  pending w = [] ->
  turn E user_id text w r w' ->
  evolves (db w) (db w').
Proof.
  intros Hp Hturn. turn_cases Hturn.
  1: by eapply get_or_create_conversation_evolves.
  all: pose proof (get_or_create_conversation_evolves _ _ _ _ Hp H1) as E1;
    pose proof (proj2 (get_or_create_conversation_resolved _ _ _ _ _ Hp H1))
      as Hp1;
    pose proof (store_message_evolves _ _ _ _ _ _ Hp1 H2) as E2.
  1-3: by etrans.
  all: destruct (store_message_returned _ _ _ _ _ _ _ Hp1 H2)
         as (_ & _ & _ & Hp2 & _);
    assert (pending (invoked user_id (Conversation.id c) w2) = []) as Hp2'
      by done;
    pose proof (store_message_evolves _ _ _ _ _ _ Hp2' H3) as E3;
    simpl in E3; by do 2 etrans.
Qed.

Lemma serve_evolves req w : evolves (db w) (db (serve E req w)).
Proof.
  destruct req as [user_id text|user_id]; simpl.
  - rewrite chat_run. destruct (strip_is_empty text); [done|].
    destruct (process_user_message E user_id text (set_pending [] w))
      as [r w'] eqn:Hrun.
    apply process_user_message_turn in Hrun.
    apply turn_evolves in Hrun; [|done]. by destruct r.
  - rewrite get_conversation_run.
    destruct (get_or_create_conversation E user_id (set_pending [] w))
      as [r w'] eqn:Hrun.
    apply get_or_create_conversation_evolves in Hrun; [|done].
    destruct r; [|done]. by destruct (db_fault E (round_trips w')).
Qed.

Lemma serve_all_evolves reqs w : evolves (db w) (db (serve_all E reqs w)).
Proof.
  revert w. induction reqs as [|req reqs IH]; intros w; [done|].
  simpl. etrans; [apply serve_evolves|apply IH].
Qed.

Lemma extends_conversation s s' c :
  extends s s' -> c ∈ conversations s ->
  exists c', c' ∈ conversations s' /\ identity c' = identity c.
Proof.
  intros [_ [k Hk]] Hc.
  assert (identity c ∈ identity <$> conversations s') as Hin.
  { rewrite Hk. apply elem_of_app. left. by apply list_elem_of_fmap_2. }
  apply list_elem_of_fmap in Hin as (c' & Hid & Hc'). eauto.
Qed.

Lemma get_or_create_conversation_owner user_id w c w' :
  pending w = [] ->
  get_or_create_conversation E user_id w = (Returned c, w') ->
  c ∈ conversations (db w') /\ Conversation.user_id c = user_id.
Proof.
  intros Hp Hrun.
  destruct (get_or_create_conversation_resolved E _ _ _ _ Hp Hrun)
    as [Hhead _].
  apply head_Some_elem_of in Hhead.
  by apply select_conversations_elem in Hhead.
Qed.

Lemma not_grown {A} (l : list A) x : l <> l ++ [x].
Proof.
  intros H. apply (f_equal length) in H. rewrite length_app in H.
  simpl in H. lia.
Qed.

(** ** The course of a turn *)

(** One run of [process_user_message], by what it leaves behind: nothing;
    or the user's message; or the user's message and the reply, in which
    case the agent was called once, on the history read right after the
    user's message was stored, and the reply is what it answered. *)
Lemma turn_outline user_id text w r w' :
  pending w = [] ->
  turn E user_id text w r w' ->
  ((exists e, r = Raised e) /\
   messages (db w') = messages (db w) /\
   agent_calls w' = agent_calls w) \/
  exists c w1 mu,
    get_or_create_conversation E user_id w = (Returned c, w1) /\
    evolves (db w1) (db w') /\
    mu = message_at E w1 (Conversation.id c) "user" text /\
    (((exists e, r = Raised e) /\
      messages (db w') = messages (db w) ++ [mu] /\
      (agent_calls w' = agent_calls w \/
       exists s2,
         messages s2 = messages (db w) ++ [mu] /\
         agent_calls w'
         = agent_calls w ++ [(user_id, turn_history (Conversation.id c) s2)]))
     \/
     exists s2 reply a,
       messages s2 = messages (db w) ++ [mu] /\
       agent_calls w'
       = agent_calls w ++ [(user_id, turn_history (Conversation.id c) s2)] /\
       process_message E user_id (turn_history (Conversation.id c) s2)
       = Returned reply /\
       Message.conversation_id a = Conversation.id c /\
       Message.role a = "assistant" /\
       Message.content a = reply /\
       messages (db w') = messages (db w) ++ [mu; a] /\
       forall x, r = Returned x -> x = a).
Proof.
  intros Hp Hturn. turn_cases Hturn.
  { left. split; [eauto|]. split.
    - by eapply get_or_create_conversation_messages.
    - apply (keeps_calls_run _ _ _ _
               (keeps_calls_get_or_create_conversation E user_id) H1). }
  all: pose proof (get_or_create_conversation_messages E _ _ _ _ Hp H1)
         as M1;
    pose proof (keeps_calls_run _ _ _ _
                  (keeps_calls_get_or_create_conversation E user_id) H1)
      as C1;
    pose proof (proj2 (get_or_create_conversation_resolved E _ _ _ _ Hp H1))
      as Hp1;
    pose proof (store_message_evolves _ _ _ _ _ _ Hp1 H2) as E2;
    pose proof (store_message_messages _ _ _ _ _ _ Hp1 H2) as M2;
    pose proof (keeps_calls_run _ _ _ _
                  (keeps_calls_store_message E _ _ _) H2) as C2.
  { destruct (stores E w1 (Conversation.id c)).
    - right. eexists c, w1, _. split; [done|]. split; [done|].
      split; [done|]. left.
      split; [eauto|]. split; [by rewrite M2, M1|]. left. congruence.
    - left. split; [eauto|]. split; [|congruence].
      by rewrite M2, app_nil_r. }
  all: destruct (store_message_returned E _ _ _ _ _ _ Hp1 H2)
         as (Hm & Hdb2 & _ & Hp2 & _);
    assert (messages (db w2) = messages (db w) ++ [m]) as M2'
      by (by rewrite Hdb2, <- M1);
    right; exists c, w1, m; split; [done|].
  { split; [done|]. split; [done|]. left. split; [eauto|].
    split; [done|]. left. simpl. congruence. }
  { split; [done|]. split; [done|]. left. split; [eauto|].
    split; [done|]. right. exists (db w2). split; [done|].
    simpl. congruence. }
  all: assert (pending (invoked user_id (Conversation.id c) w2) = [])
         as Hp2' by done;
    pose proof (store_message_evolves _ _ _ _ _ _ Hp2' H3) as E3;
    pose proof (store_message_messages _ _ _ _ _ _ Hp2' H3) as M3;
    pose proof (keeps_calls_run _ _ _ _
                  (keeps_calls_store_message E _ _ _) H3) as C3;
    simpl in E3, M3, C3;
    (split; [by etrans|]); (split; [done|]).
  { destruct (stores E (invoked user_id (Conversation.id c) w2) (Conversation.id c)).
    - right.
      exists (db w2), reply,
        (message_at E (invoked user_id (Conversation.id c) w2)
           (Conversation.id c) "assistant" reply).
      split; [done|]. split; [rewrite C3; congruence|].
      split; [done|]. split; [done|]. split; [done|]. split; [done|].
      split; [|done]. by rewrite M3, M2', <- app_assoc.
    - left. split; [eauto|]. split; [by rewrite M3, app_nil_r|].
      right. exists (db w2). split; [done|]. rewrite C3. congruence. }
  destruct (store_message_returned E _ _ _ _ _ _ Hp2' H3)
    as (Ha3 & Hdb3 & _).
  right. exists (db w2), reply, a.
  split; [done|]. split; [rewrite C3; congruence|].
  split; [done|]. split; [by rewrite Ha3|]. split; [by rewrite Ha3|].
  split; [by rewrite Ha3|]. split; [|by intros x [= <-]].
  rewrite Hdb3. simpl. by rewrite M2', <- app_assoc.
Qed.

(** ** The read endpoint *)

Lemma select_conversations_some user_id s c :
  c ∈ conversations s -> Conversation.user_id c = user_id ->
  exists c0, head (select_conversations user_id s) = Some c0.
Proof.
  intros Hc Hu.
  assert (c ∈ select_conversations user_id s) as Hin
    by (by apply select_conversations_elem).
  destruct (select_conversations user_id s) as [|c0 l];
    [by apply not_elem_of_nil in Hin|]. by exists c0.
Qed.

Lemma creates_found user_id w c :
  head (select_conversations user_id (db w)) = Some c ->
  creates E w user_id = false.
Proof.
  intros Hhead. unfold creates. rewrite Hhead.
  by rewrite andb_false_r.
Qed.

Lemma get_conversation_found user_id w c :
  head (select_conversations user_id (db w)) = Some c ->
  get_conversation E user_id w =
    match db_fault E (round_trips w) with
    | Some msg => (Raised (OperationalError msg), set_pending [] (tick_trip w))
    | None =>
        (match db_fault E (S (round_trips w)) with
         | Some msg => Raised (OperationalError msg)
         | None =>
             Returned
               (ConversationResponse.mk (Conversation.id c)
                  (reverse (select_messages (Conversation.id c)
                              default_limit (db w)))
                  (Conversation.updated_at c))
         end, set_pending [] (tick_trip (tick_trip w)))
    end.
Proof.
  intros Hhead. rewrite get_conversation_run.
  destruct (get_or_create_conversation E user_id (set_pending [] w))
    as [r w1] eqn:Hrun.
  destruct (get_or_create_conversation_spec E _ (set_pending [] w) _ _ eq_refl Hrun)
    as [Hr _ _ _ _ _ _ Hfound _].
  rewrite (Hfound _ Hhead). rewrite Hr. unfold get_or_create_result.
  simpl. rewrite Hhead.
  by destruct (db_fault E (round_trips w)).
Qed.

(** ** Counting what a request adds *)

Lemma turn_counts user_id text w r w' :
  pending w = [] ->
  turn E user_id text w r w' ->
  length (messages (db w')) <= length (messages (db w)) + 2 /\
  length (agent_calls w') <= length (agent_calls w) + 1.
Proof.
  intros Hp Hturn.
  destruct (turn_outline _ _ _ _ _ Hp Hturn)
    as [(_ & Hm & Hc)
       |(c & w1 & mu & _ & _ & _ &
         [(_ & Hm & [Hc|(s2 & _ & Hc)])
         |(s2 & reply & a & _ & Hc & _ & _ & _ & _ & Hm & _)])];
    rewrite Hm, Hc, ?length_app; simpl; lia.
Qed.

Lemma serve_counts req w :
  length (messages (db (serve E req w))) <= length (messages (db w)) + 2 /\
  length (agent_calls (serve E req w)) <= length (agent_calls w) + 1.
Proof.
  destruct req as [user_id text|user_id]; simpl.
  - rewrite chat_run. destruct (strip_is_empty text); [simpl; lia|].
    destruct (process_user_message E user_id text (set_pending [] w))
      as [r w'] eqn:Hrun.
    apply process_user_message_turn in Hrun.
    apply turn_counts in Hrun; [|done]. by destruct r.
  - rewrite get_conversation_run.
    destruct (get_or_create_conversation E user_id (set_pending [] w))
      as [r w'] eqn:Hrun.
    pose proof (get_or_create_conversation_messages E _ (set_pending [] w) _ _ eq_refl Hrun)
      as Hm.
    pose proof (keeps_calls_run _ _ _ _
                  (keeps_calls_get_or_create_conversation E user_id) Hrun)
      as Hc.
    simpl in Hm, Hc.
    destruct r; simpl; rewrite Hm, Hc; lia.
Qed.

(** ** Other users' conversations *)

Lemma store_message_other_rows cid role content w r w' i row :
  pending w = [] ->
  store_message E cid role content w = (r, w') ->
  conversations (db w) !! i = Some row ->
  Conversation.id row <> cid ->
  conversations (db w') !! i = Some row.
Proof.
  intros Hp Hrun Hrow Hne.
  rewrite (store_message_conversations _ _ _ _ _ _ Hp Hrun).
  destruct (stores E w cid); [|done]. by apply bumped_other_rows.
Qed.

Lemma get_or_create_conversation_rows user_id w r w' i row :
  pending w = [] ->
  get_or_create_conversation E user_id w = (r, w') ->
  conversations (db w) !! i = Some row ->
  conversations (db w') !! i = Some row.
Proof.
  intros Hp Hrun Hrow.
  rewrite (get_or_create_conversation_conversations _ _ _ _ Hp Hrun).
  by apply lookup_app_l_Some.
Qed.

Lemma other_user_other_id s c row :
  NoDup (Conversation.id <$> conversations s) ->
  c ∈ conversations s -> row ∈ conversations s ->
  Conversation.user_id row <> Conversation.user_id c ->
  Conversation.id row <> Conversation.id c.
Proof.
  intros Hnd Hc Hrow Hu Hid.
  pose proof (find_conversation_unique s c Hnd Hc) as Fc.
  pose proof (find_conversation_unique s row Hnd Hrow) as Frow.
  rewrite Hid in Frow. congruence.
Qed.

Lemma messages_of_app cid s s' added :
  messages s' = messages s ++ added ->
  Forall (fun m => Message.conversation_id m <> cid) added ->
  messages_of cid s' = messages_of cid s.
Proof.
  intros Hm Hother. unfold messages_of. rewrite Hm, filter_app.
  replace (filter _ added) with (@nil Message.t); [by rewrite app_nil_r|].
  symmetry. clear Hm. induction Hother as [|m l Hne _ IH]; [done|].
  by rewrite filter_cons, decide_False.
Qed.

Lemma turn_isolated user_id text w r w' i row :
  pending w = [] ->
  NoDup (Conversation.id <$> conversations (db w)) ->
  turn E user_id text w r w' ->
  conversations (db w) !! i = Some row ->
  Conversation.user_id row <> user_id ->
  conversations (db w') !! i = Some row /\
  messages_of (Conversation.id row) (db w')
  = messages_of (Conversation.id row) (db w).
Proof.
  intros Hp Hnd Hturn Hrow Hu.
  assert (forall c w1,
            get_or_create_conversation E user_id w = (Returned c, w1) ->
            conversations (db w1) !! i = Some row /\
            Conversation.id row <> Conversation.id c /\
            pending w1 = []) as Hstart.
  { intros c w1 H1.
    pose proof (get_or_create_conversation_rows _ _ _ _ _ _ Hp H1 Hrow)
      as Hrow1.
    destruct (get_or_create_conversation_owner _ _ _ _ Hp H1) as [Hc Hcu].
    pose proof (get_or_create_conversation_unique E _ _ _ _ Hp Hnd H1)
      as Hnd1.
    split; [done|]. split.
    - apply (other_user_other_id (db w1)); try done.
      + by eapply list_elem_of_lookup_2.
      + by rewrite Hcu.
    - by destruct (get_or_create_conversation_resolved E _ _ _ _ Hp H1). }
  split.
  - turn_cases Hturn.
    1: by eapply get_or_create_conversation_rows.
    all: destruct (Hstart _ _ H1) as (Hrow1 & Hne & Hp1);
      pose proof (store_message_other_rows _ _ _ _ _ _ _ _ Hp1 H2 Hrow1 Hne)
        as Hrow2; try done.
    all: destruct (store_message_returned E _ _ _ _ _ _ Hp1 H2)
           as (_ & _ & _ & Hp2 & _);
      assert (pending (invoked user_id (Conversation.id c) w2) = [])
        as Hp2' by done;
      by apply (store_message_other_rows _ _ _ _ _ _ _ _ Hp2' H3 Hrow2 Hne).
  - destruct (turn_outline _ _ _ _ _ Hp Hturn)
      as [(_ & Hm & _)|(c & w1 & mu & H1 & _ & Hmu & Hcases)].
    { unfold messages_of. by rewrite Hm. }
    destruct (Hstart _ _ H1) as (_ & Hne & _).
    destruct Hcases
      as [(_ & Hm & _)
         |(s2 & reply & a & _ & _ & _ & Hcid & _ & _ & Hm & _)];
      apply (messages_of_app _ _ _ _ Hm); subst mu;
      repeat constructor; simpl; congruence.
Qed.

Lemma serve_isolated req w i row :
  NoDup (Conversation.id <$> conversations (db w)) ->
  conversations (db w) !! i = Some row ->
  Conversation.user_id row <> requester req ->
  conversations (db (serve E req w)) !! i = Some row /\
  messages_of (Conversation.id row) (db (serve E req w))
  = messages_of (Conversation.id row) (db w).
Proof.
  intros Hnd Hrow Hu. destruct req as [user_id text|user_id]; simpl in *.
  - rewrite chat_run. destruct (strip_is_empty text); [done|].
    destruct (process_user_message E user_id text (set_pending [] w))
      as [r w'] eqn:Hrun.
    apply process_user_message_turn in Hrun.
    apply (turn_isolated _ _ _ _ _ i row) in Hrun; try done.
    by destruct r.
  - rewrite get_conversation_run.
    destruct (get_or_create_conversation E user_id (set_pending [] w))
      as [r w'] eqn:Hrun.
    pose proof (get_or_create_conversation_messages E _ (set_pending [] w)
                  _ _ eq_refl Hrun) as Hm.
    pose proof (get_or_create_conversation_rows _ (set_pending [] w)
                  _ _ _ _ eq_refl Hrun Hrow) as Hrow'.
    simpl in Hm. unfold messages_of.
    destruct r; simpl; by rewrite Hm.
Qed.

(** ** Last-update times *)

#[local] Instance ages_refl : Reflexive ages.
Proof. intros s i r Hr. exists r. split; [done|]. split; [done|lia]. Qed.

#[local] Instance ages_trans : Transitive ages.
Proof.
  intros s1 s2 s3 H12 H23 i r Hr.
  destruct (H12 i r Hr) as (r2 & Hr2 & Hid2 & Hup2).
  destruct (H23 i r2 Hr2) as (r3 & Hr3 & Hid3 & Hup3).
  exists r3. split; [done|]. split; [congruence|lia].
Qed.

Lemma store_message_ages cid role content w r w' :
  pending w = [] -> timely E w ->
  store_message E cid role content w = (r, w') ->
  ages (db w) (db w').
Proof.
  intros Hp (_ & Hbehind & _) Hrun i row Hrow.
  rewrite (store_message_conversations _ _ _ _ _ _ Hp Hrun).
  destruct (stores E w cid); [|by apply (ages_refl (db w))].
  unfold bumped.
  destruct (find_conversation cid (db w)) as [c|];
    [|by apply (ages_refl (db w))].
  rewrite list_lookup_fmap, Hrow. simpl.
  destruct (decide (Conversation.id row = Conversation.id c)) as [Heq|];
    [|exists row; split; [done|]; split; [done|lia]].
  eexists. split; [done|]. split; [done|]. simpl.
  apply list_elem_of_lookup_2 in Hrow.
  specialize (Hbehind row Hrow (S (clock_reads w))). lia.
Qed.

Lemma get_or_create_conversation_ages user_id w r w' :
  pending w = [] ->
  get_or_create_conversation E user_id w = (r, w') ->
  ages (db w) (db w').
Proof.
  intros Hp Hrun i row Hrow. exists row.
  split; [by eapply get_or_create_conversation_rows|]. split; [done|lia].
Qed.

Lemma turn_ages user_id text w r w' :
  clock_strict E -> pending w = [] -> timely E w ->
  turn E user_id text w r w' ->
  ages (db w) (db w').
Proof.
  intros Hclock Hp Ht Hturn. turn_cases Hturn.
  1: by eapply get_or_create_conversation_ages.
  all: pose proof (get_or_create_conversation_ages _ _ _ _ Hp H1) as A1;
    pose proof (get_or_create_conversation_timely E _ _ _ _ Hclock Hp Ht H1)
      as Ht1;
    pose proof (proj2 (get_or_create_conversation_resolved E _ _ _ _ Hp H1))
      as Hp1;
    pose proof (store_message_ages _ _ _ _ _ _ Hp1 Ht1 H2) as A2;
    pose proof (store_message_timely E _ _ _ _ _ _ Hclock Hp1 Ht1 H2)
      as Ht2.
  1-3: by etrans.
  all: destruct (store_message_returned E _ _ _ _ _ _ Hp1 H2)
         as (_ & _ & _ & Hp2 & _);
    assert (pending (invoked user_id (Conversation.id c) w2) = []) as Hp2'
      by done;
    assert (timely E (invoked user_id (Conversation.id c) w2)) as Ht2'
      by (apply (timely_later E w2); [done|simpl; lia|done]);
    pose proof (store_message_ages _ _ _ _ _ _ Hp2' Ht2' H3) as A3;
    simpl in A3; by do 2 etrans.
Qed.

Lemma serve_ages req w :
  clock_strict E -> timely E w -> ages (db w) (db (serve E req w)).
Proof.
  intros Hclock Ht.
  assert (timely E (set_pending [] w)) as Ht0
    by (apply (timely_later E w); [done|simpl; lia|done]).
  destruct req as [user_id text|user_id]; simpl.
  - rewrite chat_run. destruct (strip_is_empty text); [done|].
    destruct (process_user_message E user_id text (set_pending [] w))
      as [r w'] eqn:Hrun.
    apply process_user_message_turn in Hrun.
    apply turn_ages in Hrun; try done. by destruct r.
  - rewrite get_conversation_run.
    destruct (get_or_create_conversation E user_id (set_pending [] w))
      as [r w'] eqn:Hrun.
    apply get_or_create_conversation_ages in Hrun; [|done].
    destruct r; [|done]. by destruct (db_fault E (round_trips w')).
Qed.

Lemma serve_all_ages reqs w :
  clock_strict E -> timely E w -> ages (db w) (db (serve_all E reqs w)).
Proof.
  intros Hclock. revert w.
  induction reqs as [|req reqs IH]; intros w Ht; [done|].
  simpl. etrans; [by apply serve_ages|].
  apply IH. by apply serve_timely.
Qed.

(** ** Creation times in storage order *)

Lemma strictly_chronological_same s s' :
  messages s' = messages s ->
  strictly_chronological s -> strictly_chronological s'.
Proof.
  intros Hm Hs cid i j m1 m2. unfold messages_of. rewrite Hm.
  exact (Hs cid i j m1 m2).
Qed.

Lemma strictly_chronological_stored m t s :
  (forall o, o ∈ messages_of (Message.conversation_id m) s ->
     created_before o m) ->
  strictly_chronological s -> strictly_chronological (stored m t s).
Proof.
  intros Hnew Hs cid i j m1 m2 Hij.
  destruct (decide (Message.conversation_id m = cid)) as [<-|Hne].
  - rewrite messages_of_stored by done. intros H1 H2.
    pose proof (lookup_lt_Some _ _ _ H2) as Hlt.
    rewrite length_app in Hlt. simpl in Hlt.
    rewrite lookup_app_l in H1 by lia.
    destruct (decide (j < length (messages_of (Message.conversation_id m) s)))
      as [Hj|Hj].
    + rewrite lookup_app_l in H2 by lia.
      by apply (Hs (Message.conversation_id m) i j).
    + rewrite lookup_app_r in H2 by lia.
      apply list_elem_of_lookup_2 in H2.
      apply list_elem_of_singleton in H2 as ->.
      apply Hnew. by eapply list_elem_of_lookup_2.
  - replace (messages_of cid (stored m t s)) with (messages_of cid s);
      [by apply Hs|].
    unfold messages_of, stored. simpl.
    rewrite filter_app, filter_cons, decide_False by done.
    by rewrite filter_nil, app_nil_r.
Qed.

Lemma store_message_chronological cid role content w r w' :
  pending w = [] ->
  strictly_chronological (db w) ->
  store_message E cid role content w = (r, w') ->
  strictly_chronological (db w').
Proof.
  intros Hp Hs Hrun.
  destruct (store_message_spec E _ _ _ _ _ _ Hp Hrun)
    as [_ _ _ _ _ Hdb _ _].
  rewrite Hdb. destruct (stores E w cid); [|done].
  apply strictly_chronological_stored; [|done].
  intros o Ho. unfold created_before, message_at. simpl.
  by apply creation_time_later.
Qed.

Lemma turn_chronological user_id text w r w' :
  pending w = [] ->
  strictly_chronological (db w) ->
  turn E user_id text w r w' ->
  strictly_chronological (db w').
Proof.
  intros Hp Hs Hturn.
  assert (forall c w1,
            get_or_create_conversation E user_id w = (Returned c, w1) ->
            strictly_chronological (db w1) /\ pending w1 = []) as Hstart.
  { intros c w1 H1. split.
    - apply (strictly_chronological_same (db w)); [|done].
      by eapply get_or_create_conversation_messages.
    - by destruct (get_or_create_conversation_resolved E _ _ _ _ Hp H1). }
  turn_cases Hturn.
  1: { apply (strictly_chronological_same (db w)); [|done].
       by eapply get_or_create_conversation_messages. }
  all: destruct (Hstart _ _ H1) as [Hs1 Hp1];
    pose proof (store_message_chronological _ _ _ _ _ _ Hp1 Hs1 H2) as Hs2;
    try done.
  all: destruct (store_message_returned E _ _ _ _ _ _ Hp1 H2)
         as (_ & _ & _ & Hp2 & _);
    assert (pending (invoked user_id (Conversation.id c) w2) = []) as Hp2'
      by done;
    by apply (store_message_chronological _ _ _ _ _ _ Hp2' Hs2 H3).
Qed.

Lemma serve_chronological req w :
  strictly_chronological (db w) ->
  strictly_chronological (db (serve E req w)).
Proof.
  intros Hs. destruct req as [user_id text|user_id]; simpl.
  - rewrite chat_run. destruct (strip_is_empty text); [done|].
    destruct (process_user_message E user_id text (set_pending [] w))
      as [r w'] eqn:Hrun.
    apply process_user_message_turn in Hrun.
    apply turn_chronological in Hrun; try done. by destruct r.
  - rewrite get_conversation_run.
    destruct (get_or_create_conversation E user_id (set_pending [] w))
      as [r w'] eqn:Hrun.
    pose proof (get_or_create_conversation_messages E _ (set_pending [] w)
                  _ _ eq_refl Hrun) as Hm.
    assert (strictly_chronological (db w')) as Hs'
      by (by apply (strictly_chronological_same (db w))).
    destruct r; [|done]. by destruct (db_fault E (round_trips w')).
Qed.

Lemma serve_all_chronological reqs w :
  strictly_chronological (db w) ->
  strictly_chronological (db (serve_all E reqs w)).
Proof.
  revert w. induction reqs as [|req reqs IH]; intros w Hs; [done|].
  simpl. apply IH. by apply serve_chronological.
Qed.

(** ** One conversation per user *)

Lemma NoDup_fmap_eq {A B} (f : A -> B) (l : list A) x y :
  NoDup (f <$> l) -> x ∈ l -> y ∈ l -> f x = f y -> x = y.
Proof.
  intros Hnd Hx Hy Heq.
  apply list_elem_of_lookup_1 in Hx as [i Hi].
  apply list_elem_of_lookup_1 in Hy as [j Hj].
  assert (i = j) as ->; [|congruence].
  apply (NoDup_lookup (f <$> l) i j (f x)); [done|..].
  - by rewrite list_lookup_fmap, Hi.
  - by rewrite list_lookup_fmap, Hj, Heq.
Qed.

(** After the bump, the bumped conversation is what the user's query
    gives, when it is the user's only one. *)
Lemma select_conversations_bumped_single user_id t s ms c :
  NoDup (Conversation.id <$> conversations s) ->
  NoDup (Conversation.user_id <$> conversations s) ->
  c ∈ conversations s ->
  Conversation.user_id c = user_id ->
  head (select_conversations user_id
          {| conversations := bumped (Conversation.id c) t s;
             messages := ms |})
  = Some (Conversation.mk (Conversation.id c) user_id
            (Conversation.created_at c) t).
Proof.
  intros Hnd Hu Hc Hcu.
  pose proof (find_conversation_unique s c Hnd Hc) as Hfind.
  pose proof (find_conversation_bumped _ t _ _ Hfind) as Hfind'.
  apply find_conversation_elem in Hfind'. simpl in Hfind'.
  rewrite Hcu in Hfind'.
  apply select_conversations_single; [done|done|]. simpl.
  intros c0 Hc0 Hc0u.
  destruct (bumped_rows _ _ _ _ _ Hfind Hc0) as [[_ ->]|[Hne Hold]];
    [by rewrite Hcu|].
  exfalso. apply Hne. f_equal.
  apply (NoDup_fmap_eq Conversation.user_id (conversations s)); try done.
  congruence.
Qed.

End Further.

(** ** Stripping white space *)

Lemma strip_is_empty_lstrip s :
  strip_is_empty s = true <-> DateParser.lstrip s = EmptyString.
Proof.
  induction s as [|ch rest IH]; simpl; [done|].
  destruct (isspace ch); simpl; [done|]. split; discriminate.
Qed.

Lemma strip_is_empty_rev_app a b :
  strip_is_empty (String.rev_app a b) = strip_is_empty a && strip_is_empty b.
Proof.
  revert b. induction a as [|ch rest IH]; intros b; simpl; [done|].
  rewrite IH. simpl.
  by destruct (isspace ch), (strip_is_empty rest), (strip_is_empty b).
Qed.

Lemma strip_is_empty_rev s : strip_is_empty (String.rev s) = strip_is_empty s.
Proof.
  unfold String.rev. rewrite strip_is_empty_rev_app. simpl.
  by rewrite andb_true_r.
Qed.

Lemma rev_app_empty a b :
  String.rev_app a b = EmptyString -> a = EmptyString /\ b = EmptyString.
Proof.
  revert b. induction a as [|ch rest IH]; intros b; simpl; [done|].
  intros Hrev. by destruct (IH _ Hrev).
Qed.

Lemma rev_empty s : String.rev s = EmptyString -> s = EmptyString.
Proof. intros Hrev. by destruct (rev_app_empty _ _ Hrev). Qed.

Lemma lstrip_stripped s :
  strip_is_empty (DateParser.lstrip s) = true ->
  DateParser.lstrip s = EmptyString.
Proof.
  induction s as [|ch rest IH]; simpl; [done|].
  destruct (isspace ch) eqn:Hch; [done|]. simpl. by rewrite Hch.
Qed.

(** [not s.strip()], as [chat] tests it, is [strip_is_empty]. *)
Lemma strip_is_empty_strip s :
  strip_is_empty s = true <-> DateParser.strip s = EmptyString.
Proof.
  unfold DateParser.strip, DateParser.rstrip. split.
  - intros Hs. apply strip_is_empty_lstrip in Hs. by rewrite Hs.
  - intros Hs. apply rev_empty, strip_is_empty_lstrip in Hs.
    rewrite strip_is_empty_rev in Hs.
    by apply strip_is_empty_lstrip, lstrip_stripped.
Qed.

(** ** Claims *)

(** C1. One run of [process_user_message] calls the agent's
    [process_message] at most once whatever the outcome, and exactly once
    (for the submitting user) when it returns. *)
Theorem process_user_message_one_agent_call E user_id text w :
  exists calls,
    agent_calls (process_user_message E user_id text w).2
      = agent_calls w ++ calls /\
    match (process_user_message E user_id text w).1 with
    | Returned _ => exists history, calls = [(user_id, history)]
    | Raised _ => length calls <= 1
    end.
Proof.
  destruct (process_user_message E user_id text w) as [r w'] eqn:Hrun.
  apply process_user_message_turn in Hrun. simpl.
  inversion Hrun; subst;
    repeat match goal with
           | H : get_or_create_conversation _ _ _ = _ |- _ =>
               apply keeps_calls_run in H;
               [|apply keeps_calls_get_or_create_conversation]
           | H : store_message _ _ _ _ _ = _ |- _ =>
               apply keeps_calls_run in H;
               [|apply keeps_calls_store_message]
           end;
    simpl in *;
    repeat match goal with
           | H : agent_calls _ = _ |- _ => rewrite H; clear H
           end.
  1-3: exists []; rewrite app_nil_r; split; [done|simpl; lia].
  1-2: eexists [_]; split; [done|simpl; lia].
  eexists [_]; split; [done|eauto].
Qed.




(** C3.  [store_message] gives a message a creation time strictly
    greater than that of every message stored in its conversation,
    whatever the clock reads.  So in every store reached by serving
    requests one after another, from the empty store or from any store
    in which creation times strictly increase in storage order within
    each conversation, they do: in every conversation, a message stored
    later has a strictly greater creation time. *)
Theorem creation_times_strictly_increase E :
  (forall cid role content w m w',
     pending w = [] ->
     store_message E cid role content w = (Returned m, w') ->
     forall o, o ∈ messages_of cid (db w) ->
       (Message.created_at o < Message.created_at m)%Z) /\
  (forall reqs,
     strictly_chronological (db (serve_all E reqs (initial empty_store)))) /\
  (forall reqs w,
     strictly_chronological (db w) ->
     strictly_chronological (db (serve_all E reqs w))).
Proof.
  split; [|split].
  - intros cid role content w m w' Hp Hrun o Ho.
    destruct (store_message_returned E _ _ _ _ _ _ Hp Hrun) as (-> & _).
    simpl. by apply creation_time_later.
  - intros reqs. apply serve_all_chronological.
    intros cid i j m1 m2 _ H1. done.
  - intros reqs w Hs. by apply serve_all_chronological.
Qed.

Lemma creation_times_strictly_increase_witness :
  strictly_chronological
    (db (serve_all frozen [PostChat 7%N "Hello"; PostChat 7%N "What's next?"]
           (initial empty_store))) /\
  strictly_chronological
    (db (serve_all frozen [PostChat 7%N "Hello again"] scenario_b)).
Proof.
  destruct (creation_times_strictly_increase frozen) as (_ & Hempty & Hfrom).
  split; [apply Hempty|]. apply Hfrom.
  apply chronological_strictly.
  repeat constructor; unfold created_before; simpl; lia.
Defined.

(** C4. When its query goes through, [get_recent_messages] returns the
    messages of the conversation oldest first; all of them when the
    conversation holds at most [limit]; and exactly [limit] of them when
    it holds [limit + k] with [k > 0], namely the most recent ones: each
    of the [k] left out is no younger than any one returned. *)
Theorem get_recent_messages_window E cid limit w :
  db_fault E (round_trips w) = None ->
  exists window,
    (get_recent_messages E cid limit w).1 = Returned window /\
    StronglySorted created_asc window /\
    (length (messages_of cid (db w)) <= limit ->
     window ≡ₚ messages_of cid (db w)) /\
    (forall k, 0 < k -> length (messages_of cid (db w)) = limit + k ->
     length window = limit /\
     exists older,
       length older = k /\
       older ++ window ≡ₚ messages_of cid (db w) /\
       forall o r, o ∈ older -> r ∈ window -> created_asc o r).
Proof.
  intros F. rewrite get_recent_messages_run, F. simpl.
  eexists. split; [done|]. split; [|split].
  - apply reverse_oldest_first, select_messages_sorted.
  - intros Hlen. rewrite reverse_Permutation.
    unfold select_messages. rewrite take_ge.
    + apply merge_sort_Permutation.
    + by rewrite (Permutation_length (merge_sort_Permutation _ _)).
  - intros k Hk Hlen. split.
    + rewrite length_reverse, select_messages_length. lia.
    + exists (drop limit (merge_sort created_desc (messages_of cid (db w)))).
      split; [|split].
      * rewrite length_drop,
          (Permutation_length (merge_sort_Permutation _ _)). lia.
      * rewrite reverse_Permutation, (comm (++)).
        apply select_messages_split.
      * intros o r Ho Hr. rewrite elem_of_reverse in Hr.
        by eapply select_messages_newest.
Qed.

Lemma get_recent_messages_window_witness :
  exists window,
    (get_recent_messages calm 100%N 3 scenario_b).1 = Returned window /\
    StronglySorted created_asc window /\
    length window = 3.
Proof.
  destruct (get_recent_messages_window calm 100%N 3 scenario_b eq_refl)
    as (window & Hrun & Hsorted & _ & Hmore).
  exists window. split; [exact Hrun|]. split; [exact Hsorted|].
  apply (Hmore 1); [lia|reflexivity].
Defined.

(** C5.  When the agent call of a [POST /chat] request fails, the agent
    was called once, on the history of the turn, and raised; the caller
    receives status 500 with the text of the exception the agent raised,
    not a reply; the user's message is in the store, and it is the only
    row the message table has gained: no assistant message is stored.
    A [GET /conversations] that follows, when its two queries go
    through, shows the user's message, as the last one of the view (the
    store having unique conversation identifiers and no user with two
    conversations). *)
Theorem agent_failure_keeps_user_message E text user_id w :
  failure_kind E text user_id w = Some AgentError ->
  let resp := (chat E text user_id w).1 in
  let w' := (chat E text user_id w).2 in
  exists m e history,
    agent_calls w' = agent_calls w ++ [(user_id, history)] /\
    process_message E user_id history = Raised e /\
    resp = HTTPException 500 (str e) /\
    Message.role m = "user" /\ Message.content m = text /\
    messages (db w') = messages (db w) ++ [m] /\
    (NoDup (Conversation.id <$> conversations (db w)) ->
     NoDup (Conversation.user_id <$> conversations (db w)) ->
     db_fault E (round_trips w') = None ->
     db_fault E (S (round_trips w')) = None ->
     exists view,
       (get_conversation E user_id w').1 = Returned view /\
       ConversationResponse.id view = Message.conversation_id m /\
       last (ConversationResponse.messages view) = Some m).
Proof.
  intros Hkind.
  destruct (failure_kind_agent E _ _ _ Hkind)
    as (c & w1 & m & w2 & e & H1 & H2 & Ha & Hchat).
  rewrite Hchat. simpl.
  assert (pending (set_pending [] w) = []) as Hp0 by done.
  pose proof (get_or_create_conversation_messages E _ _ _ _ Hp0 H1)
    as Hmsgs. simpl in Hmsgs.
  destruct (get_or_create_conversation_resolved E _ _ _ _ Hp0 H1)
    as [Hhead Hp1].
  destruct (store_message_returned E _ _ _ _ _ _ Hp1 H2)
    as (Hm & Hdb & _ & _ & _).
  pose proof (keeps_calls_run _ _ _ _
                (keeps_calls_get_or_create_conversation E user_id) H1)
    as C1.
  pose proof (keeps_calls_run _ _ _ _
                (keeps_calls_store_message E _ _ _) H2) as C2.
  simpl in C1.
  assert (Message.conversation_id m = Conversation.id c) as Hcid
    by (by rewrite Hm).
  exists m, e, (turn_history (Conversation.id c) (db w2)).
  split; [by rewrite C2, C1|]. split; [done|]. split; [done|].
  split; [by rewrite Hm|]. split; [by rewrite Hm|].
  split; [rewrite Hdb; simpl; by rewrite Hmsgs|].
  intros Hnd Hu F0 F1.
  destruct (get_or_create_conversation_evolves E _ _ _ _ Hp0 H1 Hnd)
    as (Hnd1 & _ & Hu1).
  specialize (Hu1 Hu).
  destruct (get_or_create_conversation_owner E _ _ _ _ Hp0 H1)
    as [Hc Hcu].
  rewrite (get_conversation_found E user_id _
             (Conversation.mk (Conversation.id c) user_id
                (Conversation.created_at c) (now E (S (clock_reads w1))))).
  - simpl in F0, F1. simpl. rewrite F0, F1. simpl.
    eexists. split; [done|]. simpl. split; [done|].
    rewrite Hdb. apply newest_is_last; [unfold default_limit; lia|done|].
    intros o Ho. unfold created_before. rewrite Hm. simpl.
    by apply creation_time_later.
  - simpl. rewrite Hdb. unfold stored. rewrite Hcid.
    by apply select_conversations_bumped_single.
Qed.

Lemma agent_failure_keeps_user_message_witness :
  let E := agent_down "timeout" in
  let w' := (chat E "Are you there?" 7%N scenario_a).2 in
  (chat E "Are you there?" 7%N scenario_a).1 = HTTPException 500 "timeout" /\
  exists view m,
    (get_conversation E 7%N w').1 = Returned view /\
    last (ConversationResponse.messages view) = Some m /\
    Message.content m = "Are you there?".
Proof.
  intros E w'. split; [reflexivity|].
  destruct (agent_failure_keeps_user_message E "Are you there?" 7%N
              scenario_a eq_refl)
    as (m & e & history & _ & _ & _ & _ & Hcontent & _ & Hview).
  destruct Hview as (view & Hrun & _ & Hlast).
  - apply NoDup_singleton.
  - apply NoDup_singleton.
  - reflexivity.
  - reflexivity.
  - exists view, m. eauto.
Defined.

(** C6. After [get_or_create_conversation] has returned a conversation
    for a user (from a session with nothing pending), a second call right
    after it, when its query goes through, returns the same conversation,
    hence the same identifier, and leaves the store as it was: no
    Conversation row is created. *)
Theorem get_or_create_conversation_twice E user_id w c1 w1 :
  pending w = [] ->
  get_or_create_conversation E user_id w = (Returned c1, w1) ->
  db_fault E (round_trips w1) = None ->
  exists c2 w2,
    get_or_create_conversation E user_id w1 = (Returned c2, w2) /\
    Conversation.id c2 = Conversation.id c1 /\
    c2 = c1 /\
    db w2 = db w1.
Proof.
  intros Hp Hrun F.
  destruct (get_or_create_conversation_resolved E _ _ _ _ Hp Hrun)
    as [Hhead Hp1].
  destruct (get_or_create_conversation E user_id w1) as [r2 w2] eqn:Hrun2.
  destruct (get_or_create_conversation_spec E _ _ _ _ Hp1 Hrun2)
    as [Hr _ _ _ Hdb _ _ _ _].
  unfold get_or_create_result in Hr. rewrite F, Hhead in Hr.
  unfold creates in Hdb. rewrite Hhead in Hdb. simpl in Hdb.
  rewrite andb_false_r in Hdb. simpl in Hdb.
  subst r2. by exists c1, w2.
Qed.

Lemma get_or_create_conversation_twice_witness :
  exists c1 w1 c2 w2,
    get_or_create_conversation calm 7%N (initial empty_store)
      = (Returned c1, w1) /\
    get_or_create_conversation calm 7%N w1 = (Returned c2, w2) /\
    Conversation.id c2 = Conversation.id c1 /\
    length (conversations (db w2)) = 1.
Proof.
  eexists _, _.
  destruct (get_or_create_conversation_twice calm 7%N (initial empty_store)
              _ _ eq_refl eq_refl eq_refl) as (c2 & w2 & Hrun & Hid & _ & Hdb).
  exists c2, w2. split; [reflexivity|]. split; [exact Hrun|].
  split; [exact Hid|]. rewrite Hdb. reflexivity.
Defined.

(** C7, as the code has it.  [GET /conversations] resolves the
    conversation with [get_or_create_conversation]: for a user who has no
    conversation it inserts one.  The messages are never touched; the
    new row is in the store exactly when the query and the commit go
    through and the identifier drawn is free; a response is only
    returned with the row in place, and carries its identifier; and a
    response is returned when also the two round trips after the commit
    go through. *)
Theorem get_conversation_creates E user_id w :
  (forall c, c ∈ conversations (db w) -> Conversation.user_id c <> user_id) ->
  let c := conversation_at E w user_id in
  let run := get_conversation E user_id w in
  let inserted :=
    no_fault E (round_trips w) && no_fault E (S (round_trips w))
    && negb (has_conversation (uuid4 E (uuid_draws w)) (db w)) in
  messages (db run.2) = messages (db w) /\
  conversations (db run.2)
    = (if inserted then conversations (db w) ++ [c]
       else conversations (db w)) /\
  (forall view, run.1 = Returned view ->
     inserted = true /\ ConversationResponse.id view = Conversation.id c) /\
  (inserted = true ->
   no_fault E (S (S (round_trips w))) = true ->
   no_fault E (S (S (S (round_trips w)))) = true ->
   exists view, run.1 = Returned view).
Proof.
  intros Hnone c run inserted.
  apply select_conversations_no_rows in Hnone.
  subst run. rewrite get_conversation_run.
  destruct (get_or_create_conversation E user_id (set_pending [] w))
    as [r1 w1] eqn:Hrun1.
  destruct (get_or_create_conversation_spec E user_id (set_pending [] w)
              r1 w1 eq_refl Hrun1) as [Hr _ _ _ Hdb _ Htrips _ _].
  unfold creates in Hdb, Htrips. simpl in Hdb, Htrips.
  rewrite Hnone, andb_true_r in Hdb, Htrips.
  fold inserted in Hdb, Htrips.
  unfold get_or_create_result in Hr. simpl in Hr. rewrite Hnone in Hr.
  subst inserted. unfold no_fault in *.
  destruct (db_fault E (round_trips w)) eqn:F0;
    [subst r1; simpl; by rewrite Hdb|].
  destruct (db_fault E (S (round_trips w))) eqn:F1;
    [subst r1; simpl; by rewrite Hdb|].
  destruct (has_conversation _ _) eqn:Hfree;
    [subst r1; simpl; by rewrite Hdb|].
  simpl in Hdb, Htrips. rewrite Htrips by done.
  destruct (db_fault E (S (S (round_trips w)))) eqn:F2;
    [subst r1; simpl; by rewrite Hdb|].
  subst r1. simpl.
  destruct (db_fault E (S (S (S (round_trips w))))) eqn:F3;
    simpl; rewrite Hdb; simpl; repeat split; try done;
    try (by intros ? [= <-]); eauto.
  by injection H as <-.
Qed.

Lemma get_conversation_creates_witness :
  exists view,
    (get_conversation calm 7%N (initial empty_store)).1 = Returned view /\
    ConversationResponse.id view = 100%N.
Proof.
  destruct (get_conversation_creates calm 7%N (initial empty_store))
    as (_ & _ & Hview & Hret).
  - intros c Hc. by apply not_elem_of_nil in Hc.
  - destruct Hret as [view Hrun]; try reflexivity.
    exists view. split; [exact Hrun|]. by apply Hview.
Defined.

(** C7, as stated, fails: user 7 has no conversation in the empty store,
    and [GET /conversations] leaves a Conversation row for that user
    behind. *)
Lemma get_conversation_changes_the_store :
  let before := initial empty_store in
  let after := (get_conversation calm 7%N before).2 in
  conversations (db before) = [] /\
  conversations (db after) = [Conversation.mk 100%N 7%N 1000%Z 1001%Z] /\
  db after <> db before.
Proof. vm_compute. repeat split; done. Qed.

(** C8.  The history handed to the agent in a turn is the role/content
    projection of what [get_recent_messages] returns for the conversation
    right after the user's message was stored: at most 50 messages of
    the conversation, oldest first by creation time, the last of them
    the message just stored; with [n] messages in the conversation before
    the turn it has [min 50 (n + 1)] entries, 3 on the turn that follows
    a first completed turn. *)
Theorem agent_history E user_id text w r w' history :
  pending w = [] ->
  process_user_message E user_id text w = (r, w') ->
  agent_calls w' = agent_calls w ++ [(user_id, history)] ->
  exists c m s,
    Message.conversation_id m = Conversation.id c /\
    Message.role m = "user" /\ Message.content m = text /\
    messages s = messages (db w) ++ [m] /\
    let recent := reverse (select_messages (Conversation.id c) default_limit s)
    in
    history = to_entry <$> recent /\
    StronglySorted created_asc recent /\
    last recent = Some m /\
    length history
      = default_limit `min` S (length (messages_of (Conversation.id c) (db w)))
    /\
    (length (messages_of (Conversation.id c) (db w)) = 2 ->
     length history = 3).
Proof.
  intros Hp Hrun Hcalls.
  apply process_user_message_turn in Hrun.
  destruct (turn_context E _ _ _ _ _ Hrun)
    as [Hsame|(c & w1 & m & w2 & H1 & H2 & F & Hcalled)].
  { rewrite Hsame in Hcalls. apply (f_equal length) in Hcalls.
    rewrite length_app in Hcalls. simpl in Hcalls. lia. }
  rewrite Hcalled in Hcalls. apply app_inj_tail in Hcalls as [_ [= <-]].
  pose proof (get_or_create_conversation_messages E _ _ _ _ Hp H1) as Hmsgs.
  destruct (get_or_create_conversation_spec E _ _ _ _ Hp H1)
    as [_ _ _ Hreads _ _ _ _ Hclean].
  specialize (Hclean c eq_refl).
  destruct (store_message_returned E _ _ _ _ _ _ Hclean H2)
    as (Hm & Hdb & _ & _ & _).
  assert (messages_of (Conversation.id c) (db w1)
          = messages_of (Conversation.id c) (db w)) as Hof
    by (unfold messages_of; by rewrite Hmsgs).
  assert (length (turn_history (Conversation.id c) (db w2))
          = default_limit
            `min` S (length (messages_of (Conversation.id c) (db w))))
    as Hlen.
  { unfold turn_history.
    rewrite length_fmap, length_reverse, select_messages_length, Hdb.
    rewrite messages_of_stored by (by rewrite Hm).
    rewrite length_app, Hof. cbn [length]. by rewrite Nat.add_1_r. }
  exists c, m, (db w2). rewrite Hdb at 1. unfold stored at 1. simpl.
  rewrite Hmsgs. subst m. simpl. repeat split; try done.
  - apply reverse_oldest_first, select_messages_sorted.
  - rewrite Hdb. apply newest_is_last; [unfold default_limit; lia|done|].
    intros o Ho. unfold created_before, message_at. simpl.
    by apply creation_time_later.
  - intros Htwo. rewrite Hlen, Htwo. done.
Qed.

Lemma agent_history_witness :
  exists history,
    agent_calls scenario_b_turn.2
      = agent_calls scenario_a ++ [(7%N, history)] /\
    length history = 3 /\
    last history
      = Some {| entry_role := "user"; entry_content := "What's next?" |}.
Proof.
  eexists. split; [reflexivity|]. split; [reflexivity|].
  destruct (agent_history calm 7%N "What's next?" scenario_a
              scenario_b_turn.1 scenario_b_turn.2 _
              eq_refl ltac:(vm_compute; reflexivity) eq_refl)
    as (c & m & s & _ & Hrole & Hcontent & _ & Hhist & _ & Hlast & _).
  rewrite Hhist, fmap_last, Hlast. simpl. unfold to_entry.
  by rewrite Hrole, Hcontent.
Defined.

(** C9, as the code has it.  No failure of [POST /chat] is swallowed: a
    response body is only produced when no step fails.  An empty or blank
    message is reported as status 400 with a fixed text; a failure of any
    other kind, whichever step it comes from, is reported as status 500
    whose detail is [str] of the exception that the step raised. *)
Theorem chat_reports_every_failure E text user_id w :
  match failure_kind E text user_id w with
  | None => exists m, (chat E text user_id w).1 = Response m
  | Some ValidationError =>
      (chat E text user_id w).1
        = HTTPException 400 "Message cannot be empty"
  | Some _ =>
      exists e,
        (process_user_message E user_id text (set_pending [] w)).1 = Raised e
        /\ (chat E text user_id w).1 = HTTPException 500 (str e)
  end.
Proof.
  rewrite chat_run. unfold failure_kind.
  destruct (strip_is_empty text); [done|].
  destruct (process_user_message E user_id text (set_pending [] w))
    as [r w'] eqn:Hrun.
  apply process_user_message_turn in Hrun.
  inversion Hrun; subst;
    repeat match goal with
           | H : ?t = _ |- context [?t] => rewrite H
           end; simpl; eauto.
Qed.

(** C9, as stated, fails: the response does not tell the kinds apart.
    With the same text "connection lost", an outage at the commit of the
    user's message (round trip 4 of a new user's first turn, before any
    agent call) and an outage at the commit of the reply (round trip 8,
    after the agent has answered) give the caller the same response. *)
Lemma chat_failures_look_alike : ~ exists classify, distinguishes classify.
Proof.
  intros [classify H].
  pose proof (H (outage 4 "connection lost") "Hello" 7%N
                (initial empty_store)) as H1.
  pose proof (H (outage 8 "connection lost") "Hello" 7%N
                (initial empty_store)) as H2.
  vm_compute in H1, H2. congruence.
Qed.

(** C10, as the code has it.  [store_message] for a [conversation_id]
    that no Conversation row has, from a session with nothing pending,
    when the load of the conversation goes through and the identifier
    drawn is free.  The [if conversation:] guard lets the missing row
    pass, so the store decides.  A store that enforces conversation
    membership refuses the INSERT when the session flushes it to load the
    conversation: the call raises and nothing is stored.  On a store
    that does not enforce it, when the commit and the reload go through
    too, the call returns the message, the message is appended to the
    store, and no conversation row is touched. *)
Theorem store_message_orphan E cid role content w :
  pending w = [] ->
  (forall c, c ∈ conversations (db w) -> Conversation.id c <> cid) ->
  db_fault E (round_trips w) = None ->
  has_message (uuid4 E (uuid_draws w)) (db w) = false ->
  let run := store_message E cid role content w in
  (foreign_keys E = true ->
   run.1 = Raised (IntegrityError "foreign key violation") /\
   db run.2 = db w) /\
  (foreign_keys E = false ->
   db_fault E (S (round_trips w)) = None ->
   db_fault E (S (S (round_trips w))) = None ->
   exists m,
     run.1 = Returned m /\
     Message.conversation_id m = cid /\
     Message.role m = role /\ Message.content m = content /\
     messages (db run.2) = messages (db w) ++ [m] /\
     conversations (db run.2) = conversations (db w)).
Proof.
  intros Hp Hnone F0 Hfresh run. subst run.
  assert (has_conversation cid (db w) = false) as Hhas.
  { unfold has_conversation. apply bool_decide_eq_false.
    rewrite Exists_exists. intros (c & Hc & Hid). by apply (Hnone c). }
  apply find_conversation_None in Hnone.
  destruct (store_message E cid role content w) as [r w'] eqn:Hrun.
  pose proof (store_message_spec E _ _ _ _ _ _ Hp Hrun)
    as [Hr _ _ _ _ Hdb _ _].
  unfold store_message_result in Hr. rewrite F0, Hfresh in Hr.
  unfold stores, store_commits, no_fault, admitted in Hdb, Hr.
  rewrite F0, Hfresh, Hhas in Hdb. rewrite Hhas in Hr. simpl. split.
  - intros Hfk. rewrite Hfk in Hr, Hdb. simpl in Hr, Hdb.
    rewrite andb_false_r in Hdb. done.
  - intros Hfk F1 F2. rewrite Hfk, F1 in Hr, Hdb. rewrite F2 in Hr.
    simpl in Hr, Hdb. subst r. eexists. split; [done|].
    rewrite Hdb. unfold stored, bumped. simpl. by rewrite Hnone.
Qed.

Lemma store_message_orphan_witness :
  exists m,
    (store_message lax 55%N "user" "lost" scenario_a).1 = Returned m /\
    Message.conversation_id m = 55%N /\
    messages (db (store_message lax 55%N "user" "lost" scenario_a).2)
    = messages (db scenario_a) ++ [m].
Proof.
  destruct (store_message_orphan lax 55%N "user" "lost" scenario_a)
    as [_ Hlax]; try reflexivity.
  - intros c Hc. vm_compute in Hc.
    apply list_elem_of_singleton in Hc as ->. done.
  - destruct Hlax as (m & Hrun & Hcid & _ & _ & Hm & _); try reflexivity.
    by exists m.
Defined.

(** C10, as stated, fails: Scenario A's store, which enforces
    conversation membership, has no conversation 55, and [store_message]
    for conversation 55 raises; the message table is as it was. *)
Lemma store_message_orphan_is_refused :
  let run := store_message calm 55%N "user" "lost" scenario_a in
  Forall (fun c => Conversation.id c <> 55%N) (conversations (db scenario_a))
  /\ run.1 = Raised (IntegrityError "foreign key violation")
  /\ messages (db run.2) = messages (db scenario_a).
Proof.
  split; [repeat constructor; done|]. split; reflexivity.
Qed.

(** * Further properties of the conversation services *)

(** X1. [get_recent_messages] only reads: whatever its outcome, the store,
    the unit of work and the call log are as before; and what it returns
    are at most [limit] rows of the message table, all of the conversation
    asked for. *)
Theorem get_recent_messages_reads_one_conversation E cid limit w :
  let run := get_recent_messages E cid limit w in
  db run.2 = db w /\ pending run.2 = pending w /\
  agent_calls run.2 = agent_calls w /\
  forall msgs, run.1 = Returned msgs ->
    length msgs <= limit /\
    forall m, m ∈ msgs ->
      m ∈ messages (db w) /\ Message.conversation_id m = cid.
Proof.
  simpl. rewrite get_recent_messages_run. simpl.
  repeat split; try done.
  all: destruct (db_fault E (round_trips w)); [done|];
    injection H as <-.
  - rewrite length_reverse. unfold select_messages.
    rewrite length_take. lia.
  - rewrite elem_of_reverse in H0. by eapply select_messages_elem.
  - rewrite elem_of_reverse in H0.
    by apply select_messages_elem in H0 as [_ ?].
Qed.

(** X2. Over a message table in strictly increasing order of creation
    time, what [get_recent_messages] returns is determined: the last
    [limit] messages of the conversation as the table has them, in that
    order; all of them when there are no more than [limit]. *)
Theorem get_recent_messages_last_stored E cid limit w window :
  chronological (db w) ->
  (get_recent_messages E cid limit w).1 = Returned window ->
  window
  = drop (length (messages_of cid (db w)) - limit) (messages_of cid (db w)).
Proof.
  intros Hs. rewrite get_recent_messages_run. simpl.
  destruct (db_fault E (round_trips w)); [done|].
  intros [= <-]. by apply select_messages_chronological.
Qed.

Lemma get_recent_messages_last_stored_witness :
  exists window,
    (get_recent_messages calm 100%N 1 scenario_b).1 = Returned window /\
    window
    = drop (length (messages_of 100%N (db scenario_b)) - 1)
        (messages_of 100%N (db scenario_b)).
Proof.
  eexists. split; [reflexivity|].
  apply (get_recent_messages_last_stored calm 100%N 1 scenario_b).
  - repeat constructor; unfold created_before; simpl; lia.
  - reflexivity.
Defined.

(** X3. The conversation [get_or_create_conversation] returns (from a
    session with nothing pending) belongs to the user asked for, is a
    row of the store when the call is over, and no conversation of that
    user in the store was updated later than it. *)
Theorem get_or_create_conversation_returns_the_latest E user_id w c w' :
  pending w = [] ->
  get_or_create_conversation E user_id w = (Returned c, w') ->
  Conversation.user_id c = user_id /\
  c ∈ conversations (db w') /\
  forall c', c' ∈ conversations (db w') ->
    Conversation.user_id c' = user_id ->
    (Conversation.updated_at c' <= Conversation.updated_at c)%Z.
Proof.
  intros Hp Hrun.
  destruct (get_or_create_conversation_resolved E _ _ _ _ Hp Hrun)
    as [Hhead _].
  pose proof (head_Some_elem_of _ _ Hhead) as Hin.
  apply select_conversations_elem in Hin as [Hin Hu].
  repeat split; try done.
  intros c' Hc' Hu'. by eapply select_conversations_head_latest.
Qed.

Lemma get_or_create_conversation_returns_the_latest_witness :
  exists c w',
    get_or_create_conversation calm 7%N scenario_b = (Returned c, w') /\
    Conversation.user_id c = 7%N /\ c ∈ conversations (db w').
Proof.
  eexists _, _. split; [reflexivity|].
  destruct (get_or_create_conversation_returns_the_latest calm 7%N
              scenario_b _ _ eq_refl eq_refl) as (Hu & Hin & _).
  by split.
Defined.

(** X4. [store_message] (from a session with nothing pending) leaves
    every message already stored in place and adds at most one, at the
    end, with the conversation, role and content it was given; it adds
    and removes no conversation row, and the rows of other conversations
    are untouched.  A message is returned only when it was added. *)
Theorem store_message_footprint E cid role content w :
  pending w = [] ->
  let run := store_message E cid role content w in
  (messages (db run.2) = messages (db w) \/
   exists m,
     messages (db run.2) = messages (db w) ++ [m] /\
     Message.conversation_id m = cid /\
     Message.role m = role /\ Message.content m = content) /\
  (forall m, run.1 = Returned m ->
     messages (db run.2) = messages (db w) ++ [m]) /\
  length (conversations (db run.2)) = length (conversations (db w)) /\
  (forall i r, conversations (db w) !! i = Some r ->
     Conversation.id r <> cid ->
     conversations (db run.2) !! i = Some r).
Proof.
  intros Hp run. subst run.
  destruct (store_message E cid role content w) as [r w'] eqn:Hrun.
  simpl.
  pose proof (store_message_messages E _ _ _ _ _ _ Hp Hrun) as Hm.
  pose proof (store_message_conversations E _ _ _ _ _ _ Hp Hrun) as Hc.
  repeat split.
  - rewrite Hm. destruct (stores E w cid); [right|left].
    + eexists. by repeat split.
    + by rewrite app_nil_r.
  - intros m ->.
    destruct (store_message_returned E _ _ _ _ _ _ Hp Hrun)
      as (_ & Hdb & _). by rewrite Hdb.
  - rewrite Hc. destruct (stores E w cid); [|done].
    apply bumped_length.
  - intros i r0 Hr Hne. rewrite Hc.
    destruct (stores E w cid); [|done]. by apply bumped_other_rows.
Qed.

Lemma store_message_footprint_witness :
  let run := store_message calm 100%N "user" "again" scenario_a in
  messages (db run.2)
  = messages (db scenario_a)
    ++ [Message.mk 103%N 100%N "user" "again" 1006%Z].
Proof.
  destruct (store_message_footprint calm 100%N "user" "again" scenario_a
              eq_refl) as (_ & Hret & _).
  by apply Hret.
Defined.

(** X5. One run of [process_user_message] (from a session with nothing
    pending) appends to the message table and changes no stored message.
    It appends nothing, and then has raised without calling the agent;
    or the user's message alone, and then has raised; or the user's
    message followed by the assistant's, of the same conversation, and
    then the agent was called once in the run and the content of the
    assistant's message is what it answered; a message that is returned
    is that assistant's message. *)
Theorem process_user_message_stores E user_id text w :
  pending w = [] ->
  let run := process_user_message E user_id text w in
  exists added,
    messages (db run.2) = messages (db w) ++ added /\
    match added with
    | [] => agent_calls run.2 = agent_calls w /\ exists e, run.1 = Raised e
    | [mu] =>
        Message.role mu = "user" /\ Message.content mu = text /\
        exists e, run.1 = Raised e
    | [mu; a] =>
        Message.role mu = "user" /\ Message.content mu = text /\
        Message.role a = "assistant" /\
        Message.conversation_id a = Message.conversation_id mu /\
        (exists h,
           agent_calls run.2 = agent_calls w ++ [(user_id, h)] /\
           process_message E user_id h = Returned (Message.content a)) /\
        forall x, run.1 = Returned x -> x = a
    | _ => False
    end.
Proof.
  intros Hp run. subst run.
  destruct (process_user_message E user_id text w) as [r w'] eqn:Hrun.
  apply process_user_message_turn in Hrun. simpl.
  destruct (turn_outline E _ _ _ _ _ Hp Hrun)
    as [(Hr & Hm & Hc)
       |(c & w1 & mu & _ & _ & Hmu &
         [(Hr & Hm & _)
         |(s2 & reply & a & _ & Hc & Ha & Hcid & Hrole & Hcontent
           & Hm & Hret)])].
  - exists []. by rewrite app_nil_r.
  - exists [mu]. by subst mu.
  - exists [mu; a]. split; [done|]. subst mu. rewrite Hcid, Hcontent.
    repeat split; eauto.
Qed.

Lemma process_user_message_stores_witness :
  exists added,
    messages (db (process_user_message calm 7%N "What's next?" scenario_a).2)
    = messages (db scenario_a) ++ added.
Proof.
  destruct (process_user_message_stores calm 7%N "What's next?" scenario_a
              eq_refl) as (added & Hm & _).
  by exists added.
Defined.

(** X6. Whatever one run of [process_user_message] for a user adds to the
    message table (from a session with nothing pending, over a store
    whose conversation identifiers are unique) belongs to a conversation
    that, in the store the run leaves, is owned by that user. *)
Theorem process_user_message_writes_to_own_conversation E user_id text w :
  pending w = [] ->
  NoDup (Conversation.id <$> conversations (db w)) ->
  let run := process_user_message E user_id text w in
  forall m, m ∈ messages (db run.2) -> m ∉ messages (db w) ->
  exists c,
    c ∈ conversations (db run.2) /\
    Conversation.id c = Message.conversation_id m /\
    Conversation.user_id c = user_id.
Proof.
  intros Hp Hnd run m Hin Hnew. subst run.
  destruct (process_user_message E user_id text w) as [r w'] eqn:Hrun.
  apply process_user_message_turn in Hrun. simpl in *.
  destruct (turn_outline E _ _ _ _ _ Hp Hrun)
    as [(_ & Hm & _)|(c & w1 & mu & H1 & E1 & Hmu & Hcases)].
  { by rewrite Hm in Hin. }
  destruct (get_or_create_conversation_owner E _ _ _ _ Hp H1) as [Hc Hu].
  pose proof (get_or_create_conversation_unique E _ _ _ _ Hp Hnd H1) as Hnd1.
  destruct (E1 Hnd1) as (_ & X1 & _).
  destruct (extends_conversation _ _ _ X1 Hc) as (c' & Hc' & Hid).
  injection Hid as Hid Huser _.
  exists c'. split; [done|]. split; [|congruence]. rewrite Hid.
  destruct Hcases
    as [(_ & Hm & _)|(s2 & reply & a & _ & _ & _ & Hcid & _ & _ & Hm & _)];
    rewrite Hm in Hin; apply elem_of_app in Hin as [Hin|Hin]; try done.
  - apply list_elem_of_singleton in Hin as ->. by rewrite Hmu.
  - apply elem_of_cons in Hin as [->|Hin]; [by rewrite Hmu|].
    by apply list_elem_of_singleton in Hin as ->.
Qed.

Lemma process_user_message_writes_to_own_conversation_witness :
  exists c,
    c ∈ conversations
          (db (process_user_message calm 7%N "What's next?" scenario_a).2) /\
    Conversation.id c = 100%N /\ Conversation.user_id c = 7%N.
Proof.
  apply (process_user_message_writes_to_own_conversation calm 7%N
           "What's next?" scenario_a eq_refl
           ltac:(apply NoDup_singleton)
           (Message.mk 103%N 100%N "user" "What's next?" 1006%Z)).
  - vm_compute. do 2 constructor 2. constructor 1.
  - intros Hin. vm_compute in Hin.
    repeat (apply elem_of_cons in Hin as [Hin|Hin]; [discriminate|]).
    by apply elem_of_nil in Hin.
Defined.

(** X7. The history one run of [process_user_message] hands to the agent
    (from a session with nothing pending, over a store whose conversation
    identifiers are unique) is passed with the identifier of the user of
    the run, and each of its entries is the role and content of a stored
    message of one conversation, which the store the run leaves has as a
    conversation of that user. *)
Theorem agent_is_given_own_conversation E user_id text w u h :
  pending w = [] ->
  NoDup (Conversation.id <$> conversations (db w)) ->
  let run := process_user_message E user_id text w in
  agent_calls run.2 = agent_calls w ++ [(u, h)] ->
  u = user_id /\
  exists c,
    c ∈ conversations (db run.2) /\
    Conversation.user_id c = user_id /\
    forall e, e ∈ h ->
    exists m,
      m ∈ messages (db run.2) /\
      Message.conversation_id m = Conversation.id c /\
      e = to_entry m.
Proof.
  intros Hp Hnd run Hcall. subst run.
  destruct (process_user_message E user_id text w) as [r w'] eqn:Hrun.
  apply process_user_message_turn in Hrun. simpl in *.
  destruct (turn_outline E _ _ _ _ _ Hp Hrun)
    as [(_ & _ & Hc)|(c & w1 & mu & H1 & E1 & Hmu & Hcases)].
  { rewrite Hc in Hcall. by apply not_grown in Hcall. }
  destruct (get_or_create_conversation_owner E _ _ _ _ Hp H1) as [Hc Hu].
  pose proof (get_or_create_conversation_unique E _ _ _ _ Hp Hnd H1) as Hnd1.
  destruct (E1 Hnd1) as (_ & X1 & _).
  destruct (extends_conversation _ _ _ X1 Hc) as (c' & Hc' & Hid).
  injection Hid as Hid Huser _.
  assert (exists s2 tl,
            messages s2 = messages (db w) ++ [mu] /\
            messages (db w') = messages s2 ++ tl /\
            agent_calls w'
            = agent_calls w
              ++ [(user_id, turn_history (Conversation.id c) s2)])
    as (s2 & tl & Hs2 & Hm & Hlog).
  { destruct Hcases
      as [(_ & Hm & [Hsame|(s2 & Hs2 & Hlog)])
         |(s2 & reply & a & Hs2 & Hlog & _ & _ & _ & _ & Hm & _)].
    - rewrite Hsame in Hcall. by apply not_grown in Hcall.
    - exists s2, []. by rewrite app_nil_r, Hs2.
    - exists s2, [a]. by rewrite Hs2, <- app_assoc. }
  rewrite Hlog in Hcall. apply app_inv_head in Hcall.
  injection Hcall as <- <-. split; [done|].
  exists c'. split; [done|]. split; [congruence|].
  intros e He. unfold turn_history in He.
  apply list_elem_of_fmap in He as (m & -> & Hin).
  rewrite elem_of_reverse in Hin.
  apply select_messages_elem in Hin as [Hin Hcid].
  exists m. split; [|by rewrite Hid]. rewrite Hm. apply elem_of_app. by left.
Qed.

Lemma agent_is_given_own_conversation_witness :
  exists c,
    c ∈ conversations
          (db (process_user_message calm 7%N "Hello" (initial empty_store)).2)
    /\ Conversation.user_id c = 7%N.
Proof.
  destruct (agent_is_given_own_conversation calm 7%N "Hello"
              (initial empty_store) 7%N
              [{| entry_role := "user"; entry_content := "Hello" |}]
              eq_refl ltac:(vm_compute; constructor) eq_refl)
    as (_ & c & Hc & Hu & _).
  by exists c.
Defined.

(** X8. [GET /conversations] never touches the message table and never
    calls the agent, whatever its outcome, and for a user who has a
    conversation it leaves the whole store as it was.  The view it
    returns carries the identifier and the last-update time of a
    conversation of the user that no other conversation of the user
    beats in last-update time, with at most 50 messages, all stored
    messages of that conversation. *)
Theorem get_conversation_view E user_id w :
  let run := get_conversation E user_id w in
  messages (db run.2) = messages (db w) /\
  agent_calls run.2 = agent_calls w /\
  ((exists c, c ∈ conversations (db w) /\ Conversation.user_id c = user_id) ->
   db run.2 = db w) /\
  forall view, run.1 = Returned view ->
    length (ConversationResponse.messages view) <= 50 /\
    (forall m, m ∈ ConversationResponse.messages view ->
       m ∈ messages (db w) /\
       Message.conversation_id m = ConversationResponse.id view) /\
    exists c,
      c ∈ conversations (db run.2) /\
      Conversation.user_id c = user_id /\
      Conversation.id c = ConversationResponse.id view /\
      Conversation.updated_at c = ConversationResponse.updated_at view /\
      forall c', c' ∈ conversations (db run.2) ->
        Conversation.user_id c' = user_id ->
        (Conversation.updated_at c' <= Conversation.updated_at c)%Z.
Proof.
  simpl. rewrite get_conversation_run.
  destruct (get_or_create_conversation E user_id (set_pending [] w))
    as [r w1] eqn:Hrun.
  pose proof (get_or_create_conversation_messages E _ (set_pending [] w)
                _ _ eq_refl Hrun) as Hm.
  pose proof (keeps_calls_run _ _ _ _
                (keeps_calls_get_or_create_conversation E user_id) Hrun)
    as Hc.
  destruct (get_or_create_conversation_spec E _ (set_pending [] w) _ _
              eq_refl Hrun) as [_ _ _ _ Hdb _ _ _ _].
  simpl in Hm, Hc, Hdb.
  assert ((exists c, c ∈ conversations (db w) /\
                     Conversation.user_id c = user_id) -> db w1 = db w)
    as Hsame.
  { intros (c & Hin & Hu).
    destruct (select_conversations_some user_id (db w) c Hin Hu)
      as [c0 Hhead].
    by rewrite (creates_found E user_id (set_pending [] w) c0 Hhead)
      in Hdb. }
  destruct r as [c|e]; simpl; [|by repeat split].
  split; [done|]. split; [done|]. split; [done|].
  intros view Hview.
  destruct (db_fault E (round_trips w1)); [done|].
  injection Hview as <-. simpl.
  destruct (get_or_create_conversation_resolved E _ (set_pending [] w)
              _ _ eq_refl Hrun) as [Hhead _].
  split; [|split].
  - rewrite length_reverse. unfold select_messages, default_limit.
    rewrite length_take. lia.
  - intros m Hin. rewrite elem_of_reverse in Hin.
    apply select_messages_elem in Hin as [Hin Hcid]. by rewrite <- Hm.
  - exists c.
    pose proof (head_Some_elem_of _ _ Hhead) as Hin.
    apply select_conversations_elem in Hin as [Hin Hu].
    repeat split; try done.
    intros c' Hc' Hu'. by eapply select_conversations_head_latest.
Qed.

(** X9. [GET /conversations] for a user who has one conversation, over
    a message table in strictly increasing order of creation time: when
    its two queries go through, the view returned carries the identifier
    and the last-update time of that conversation and its last 50
    messages, in the order the table has them; and the store is as it
    was, so the same request served again gives the same view. *)
Theorem get_conversation_of_one_conversation E user_id w c :
  chronological (db w) ->
  c ∈ conversations (db w) ->
  Conversation.user_id c = user_id ->
  (forall c', c' ∈ conversations (db w) ->
     Conversation.user_id c' = user_id -> c' = c) ->
  db_fault E (round_trips w) = None ->
  db_fault E (S (round_trips w)) = None ->
  let run := get_conversation E user_id w in
  let stored_ones := messages_of (Conversation.id c) (db w) in
  run.1
  = Returned
      (ConversationResponse.mk (Conversation.id c)
         (drop (length stored_ones - 50) stored_ones)
         (Conversation.updated_at c)) /\
  db run.2 = db w.
Proof.
  intros Hs Hc Hu Hone F1 F2. simpl.
  rewrite (get_conversation_found E user_id w c)
    by (by apply select_conversations_single).
  rewrite F1, F2. simpl. split; [|done].
  by rewrite select_messages_chronological.
Qed.

Lemma get_conversation_of_one_conversation_witness :
  (get_conversation calm 7%N scenario_b).1
  = Returned
      (ConversationResponse.mk 100%N (messages (db scenario_b)) 1009%Z).
Proof.
  destruct (get_conversation_of_one_conversation calm 7%N scenario_b
              (Conversation.mk 100%N 7%N 1000%Z 1009%Z)) as [Hview _].
  - repeat constructor; unfold created_before; simpl; lia.
  - by left.
  - reflexivity.
  - intros c' Hc' _. by apply list_elem_of_singleton in Hc'.
  - reflexivity.
  - reflexivity.
  - exact Hview.
Defined.

(** X10. One conversation per user: over requests served one after
    another, from a store with unique conversation identifiers in which
    no user has two conversations, no user ever has two conversations,
    and the identifiers stay unique. *)
Theorem one_conversation_per_user E reqs w :
  NoDup (Conversation.id <$> conversations (db w)) ->
  NoDup (Conversation.user_id <$> conversations (db w)) ->
  NoDup (Conversation.user_id <$> conversations (db (serve_all E reqs w))) /\
  NoDup (Conversation.id <$> conversations (db (serve_all E reqs w))).
Proof.
  intros Hnd Hu.
  destruct (serve_all_evolves E reqs w Hnd) as (Hnd' & _ & Hu').
  by auto.
Qed.

Lemma one_conversation_per_user_witness :
  NoDup (Conversation.user_id <$>
           conversations
             (db (serve_all calm
                    [PostChat 7%N "Hello"; GetConversations 8%N;
                     PostChat 8%N "Hi"; GetConversations 7%N]
                    (initial empty_store)))).
Proof.
  apply (one_conversation_per_user calm
           [PostChat 7%N "Hello"; GetConversations 8%N;
            PostChat 8%N "Hi"; GetConversations 7%N]
           (initial empty_store));
    apply NoDup_nil_2.
Defined.

(** X11. Requests only add: over requests served one after another, from
    a store with unique conversation identifiers, every message stored
    stays in the message table, unchanged and at its place, new ones
    coming after it; and every conversation stays in the conversation
    table, at its place, with its identifier, its owner and its creation
    time. *)
Theorem requests_only_add E reqs w :
  NoDup (Conversation.id <$> conversations (db w)) ->
  let w' := serve_all E reqs w in
  messages (db w) `prefix_of` messages (db w') /\
  (identity <$> conversations (db w))
    `prefix_of` (identity <$> conversations (db w')).
Proof.
  intros Hnd.
  by destruct (serve_all_evolves E reqs w Hnd) as (_ & X & _).
Qed.

Lemma requests_only_add_witness :
  messages (db scenario_a)
    `prefix_of`
  messages (db (serve_all calm [PostChat 7%N "What's next?"] scenario_a)).
Proof.
  destruct (requests_only_add calm [PostChat 7%N "What's next?"] scenario_a
              ltac:(apply NoDup_singleton)) as [Hm _].
  exact Hm.
Defined.

(** X12. For a message of ASCII characters, [POST /chat] answers 400
    exactly when nothing is left of the message once white space is
    stripped from both its ends; the detail is then "Message cannot be
    empty", and nothing has happened: no query, no clock reading, no
    identifier drawn, no agent call, the store as it was. *)
Theorem chat_rejects_blank_only E text user_id w :
  ascii_text text = true ->
  let run := chat E text user_id w in
  ((exists detail, run.1 = HTTPException 400 detail) <->
   DateParser.strip text = EmptyString) /\
  ((exists detail, run.1 = HTTPException 400 detail) ->
   run.1 = HTTPException 400 "Message cannot be empty" /\
   db run.2 = db w /\ round_trips run.2 = round_trips w /\
   clock_reads run.2 = clock_reads w /\ uuid_draws run.2 = uuid_draws w /\
   agent_calls run.2 = agent_calls w).
Proof.
  intros _. simpl.
  pose proof (strip_is_empty_strip text) as Hs. rewrite chat_run.
  destruct (strip_is_empty text); simpl.
  - split; [|done]. split; [intros _; by apply Hs|]. by eexists.
  - assert (DateParser.strip text <> EmptyString) as Hne
      by (intros Hnone; by apply Hs in Hnone).
    destruct (process_user_message E user_id text (set_pending [] w))
      as [[m|e] w']; simpl;
      (split; [split; [by intros [? ?]|done]|by intros [? ?]]).
Qed.

Lemma chat_rejects_blank_only_witness :
  (chat calm "  " 7%N scenario_a).1
  = HTTPException 400 "Message cannot be empty".
Proof.
  destruct (chat_rejects_blank_only calm "  " 7%N scenario_a eq_refl)
    as [Hiff Hthen].
  destruct (Hthen (proj2 Hiff eq_refl)) as [Hrun _]. exact Hrun.
Defined.

(** X13. Over requests served one after another, the message table grows
    by at most two messages per request and the agent is called at most
    once per request. *)
Theorem requests_add_at_most E reqs w :
  let w' := serve_all E reqs w in
  length (messages (db w')) <= length (messages (db w)) + 2 * length reqs /\
  length (agent_calls w') <= length (agent_calls w) + length reqs.
Proof.
  simpl. revert w. induction reqs as [|req reqs IH]; intros w.
  { simpl. lia. }
  pose proof (serve_counts E req w) as [Hm Hc].
  specialize (IH (serve E req w)). cbn [serve_all foldl length] in *.
  unfold serve_all in IH. lia.
Qed.

(** X14. When [store_message] raises (from a session with nothing
    pending), either the store is as it was, or the message was
    committed and it is the reload of the message after the commit, the
    third round trip of the call, that failed. *)
Theorem store_message_failure E cid role content w e :
  pending w = [] ->
  let run := store_message E cid role content w in
  run.1 = Raised e ->
  db run.2 = db w \/
  exists msg,
    db_fault E (S (S (round_trips w))) = Some msg /\
    e = OperationalError msg /\
    messages (db run.2)
    = messages (db w) ++ [message_at E w cid role content].
Proof.
  intros Hp run. subst run.
  destruct (store_message E cid role content w) as [r w'] eqn:Hrun.
  simpl. intros ->.
  destruct (store_message_spec E _ _ _ _ _ _ Hp Hrun)
    as [Hr _ _ _ _ Hdb _ _].
  unfold store_message_result in Hr.
  unfold stores, store_commits, no_fault in Hdb.
  destruct (db_fault E (round_trips w)); [by left|].
  destruct (has_message _ _);
    [left; by rewrite ?andb_false_r in Hdb|].
  destruct (admitted E cid (db w));
    [|left; by rewrite ?andb_false_r in Hdb].
  destruct (db_fault E (S (round_trips w))); [by left|]. simpl in Hdb.
  destruct (db_fault E (S (S (round_trips w)))) as [msg|]; [|done].
  simpl in Hr. right. exists msg. split; [done|]. split; [congruence|].
  by rewrite Hdb.
Qed.

Lemma store_message_failure_witness :
  let run := store_message (outage 12 "gone") 100%N "user" "again"
               scenario_a in
  messages (db run.2)
  = messages (db scenario_a)
    ++ [message_at (outage 12 "gone") scenario_a 100%N "user" "again"].
Proof.
  destruct (store_message_failure (outage 12 "gone") 100%N "user" "again"
              scenario_a (OperationalError "gone") eq_refl eq_refl)
    as [Hsame|(msg & _ & _ & Hm)].
  - vm_compute in Hsame. discriminate Hsame.
  - exact Hm.
Defined.

(** X15. Requests of other users leave a user's conversation alone: over
    requests served one after another, none of them made by the owner of
    a stored conversation, from a store with unique conversation
    identifiers, the row of that conversation stays as it is, its
    last-update time included, and so do the messages of the
    conversation. *)
Theorem other_users_requests_leave_conversation E reqs w i row :
  NoDup (Conversation.id <$> conversations (db w)) ->
  conversations (db w) !! i = Some row ->
  Forall (fun req => requester req <> Conversation.user_id row) reqs ->
  let w' := serve_all E reqs w in
  conversations (db w') !! i = Some row /\
  messages_of (Conversation.id row) (db w')
  = messages_of (Conversation.id row) (db w).
Proof.
  intros Hnd Hrow Hreqs. simpl. revert w Hnd Hrow.
  induction Hreqs as [|req reqs Hreq _ IH]; intros w Hnd Hrow; [done|].
  destruct (serve_isolated E req w i row Hnd Hrow) as [Hrow' Hm];
    [congruence|].
  destruct (serve_evolves E req w Hnd) as (Hnd' & _).
  destruct (IH _ Hnd' Hrow') as [Hrow'' Hm']. simpl.
  split; [done|]. by rewrite <- Hm.
Qed.

Lemma other_users_requests_leave_conversation_witness :
  conversations
    (db (serve_all calm [PostChat 8%N "Hi"; GetConversations 9%N]
           scenario_a)) !! 0
  = Some (Conversation.mk 100%N 7%N 1000%Z 1005%Z).
Proof.
  apply (other_users_requests_leave_conversation calm
           [PostChat 8%N "Hi"; GetConversations 9%N] scenario_a 0
           (Conversation.mk 100%N 7%N 1000%Z 1005%Z)).
  - apply NoDup_singleton.
  - reflexivity.
  - repeat constructor; discriminate.
Defined.

(** X16. With a clock whose readings strictly increase, and stored times
    that lie before the readings to come, the last-update time of a
    conversation never goes back: over requests served one after
    another, every conversation keeps its place and its identifier, and
    its last-update time stays or grows. *)
Theorem updated_at_never_goes_back E reqs w i row :
  clock_strict E -> timely E w ->
  conversations (db w) !! i = Some row ->
  exists row',
    conversations (db (serve_all E reqs w)) !! i = Some row' /\
    Conversation.id row' = Conversation.id row /\
    (Conversation.updated_at row <= Conversation.updated_at row')%Z.
Proof.
  intros Hclock Ht Hrow. by apply (serve_all_ages E reqs w Hclock Ht).
Qed.

Lemma updated_at_never_goes_back_witness :
  exists row',
    conversations
      (db (serve_all calm [PostChat 7%N "More"] scenario_a)) !! 0
    = Some row' /\
    (1005 <= Conversation.updated_at row')%Z.
Proof.
  destruct (updated_at_never_goes_back calm [PostChat 7%N "More"] scenario_a
              0 (Conversation.mk 100%N 7%N 1000%Z 1005%Z))
    as (row' & Hrow' & _ & Hup).
  - intros i j Hij. simpl. lia.
  - split; [|split].
    + intros m Hm k Hk. simpl in Hk.
      repeat (apply elem_of_cons in Hm as [->|Hm]; [simpl; lia|]).
      by apply elem_of_nil in Hm.
    + intros c Hc k Hk. simpl in Hk.
      repeat (apply elem_of_cons in Hc as [->|Hc]; [simpl; lia|]).
      by apply elem_of_nil in Hc.
    + repeat constructor; unfold created_before; simpl; lia.
  - reflexivity.
  - by exists row'.
Defined.

(** * Properties of the date utilities *)

Section Dates.
Import DateParser.
#[local] Open Scope Z_scope.

Lemma days_bounds diff :
  days diff * day_us <= diff < (days diff + 1) * day_us.
Proof.
  unfold days, day_us.
  pose proof (Z.div_mod diff 86400000000 ltac:(lia)).
  pose proof (Z.mod_pos_bound diff 86400000000 ltac:(lia)). lia.
Qed.

Lemma date_later now n : date (now + timedelta n) = date now + n.
Proof.
  unfold date, timedelta, day_us. by rewrite Z.div_add by lia.
Qed.

Lemma after_keyword keyword rest : after keyword (keyword +:+ rest) = Some rest.
Proof.
  induction keyword as [|k keyword IH]; simpl; [by destruct rest|].
  by rewrite decide_True.
Qed.

Lemma lstrip_spaces ws s :
  strip_is_empty ws = true ->
  lstrip s = s ->
  lstrip (ws +:+ s) = s.
Proof.
  intros Hws Hs. induction ws as [|ch ws IH]; [done|].
  simpl in *. apply andb_true_iff in Hws as [-> Hws]. by apply IH.
Qed.

Lemma day_name t name :
  _DAY_NAMES !! t = Some name ->
  index name _DAY_NAMES = Some t /\ lstrip name = name /\
  0 <= Z.of_nat t <= 6 /\
  match_day "next" name = None /\ match_day "this" name = None /\
  match_day "on" name = None.
Proof.
  intros Ht.
  do 7 (destruct t as [|t]; [injection Ht as <-; by vm_compute|]).
  done.
Qed.

Lemma match_day_found keyword ws name t :
  ws <> EmptyString ->
  strip_is_empty ws = true ->
  _DAY_NAMES !! t = Some name ->
  match_day keyword (keyword +:+ ws +:+ name) = Some t.
Proof.
  intros Hne Hws Ht. unfold match_day. rewrite after_keyword.
  destruct ws as [|ch ws]; [done|]. simpl in *.
  apply andb_true_iff in Hws as [-> Hws].
  destruct (day_name t name Ht) as (Hindex & Hstrip & _).
  by rewrite lstrip_spaces.
Qed.

(** X17. [format_relative_date] goes by the whole days between now and
    the time given, rounded down: "today" is any time from now up to a
    day ahead, "tomorrow" from one day up to two days ahead, and
    "yesterday" any time up to a day ago, however recent; from two days
    ahead on it is "in n days" with the number of whole days ahead, and
    more than a day ago "overdue by n days" with the days passed
    rounded up. *)
Theorem format_relative_date_by_distance now dt :
  let shown := format_relative_date now dt in
  (shown = "today" <-> now <= dt < now + day_us) /\
  (shown = "tomorrow" <-> now + day_us <= dt < now + 2 * day_us) /\
  (shown = "yesterday" <-> now - day_us <= dt < now) /\
  (now + 2 * day_us <= dt ->
   exists n, 2 <= n /\ n * day_us <= dt - now < (n + 1) * day_us /\
     shown = "in " +:+ pretty n +:+ " days") /\
  (dt < now - day_us ->
   exists n, 2 <= n /\ (n - 1) * day_us < now - dt <= n * day_us /\
     shown = "overdue by " +:+ pretty n +:+ " days").
Proof.
  simpl. unfold format_relative_date.
  pose proof (days_bounds (dt - now)) as Hd.
  set (d := days (dt - now)) in *. unfold day_us in *.
  destruct (Z.eqb_spec d 0) as [H0|H0].
  { repeat split; try done; lia. }
  destruct (Z.eqb_spec d 1) as [H1|H1].
  { repeat split; try done; lia. }
  destruct (Z.eqb_spec d (-1)) as [Hm|Hm].
  { repeat split; try done; lia. }
  destruct (Z.ltb_spec 1 d) as [Hlt|Hge].
  - repeat split; try done; try lia.
    intros _. exists d. repeat split; try done; lia.
  - repeat split; try done; try lia.
    intros _. exists (Z.abs d). repeat split; try done; lia.
Qed.

(** X18. "next <day>", in any letter case and with white space around
    and between the words, is preprocessed to the date of the first day
    after today that falls on that day of the week: one to seven days
    ahead, a week ahead when today is that day. *)
Theorem next_day_is_the_first_to_come now text ws name t :
  strip (lower text) = "next" +:+ ws +:+ name ->
  ws <> EmptyString ->
  strip_is_empty ws = true ->
  _DAY_NAMES !! t = Some name ->
  exists d,
    _preprocess_day_pattern now text = IsoDate d /\
    date now < d <= date now + 7 /\
    day_of_week d = Z.of_nat t /\
    forall d', date now < d' < d -> day_of_week d' <> Z.of_nat t.
Proof.
  intros Htext Hne Hws Ht. unfold _preprocess_day_pattern.
  rewrite Htext, (match_day_found "next" ws name t Hne Hws Ht).
  destruct (day_name t name Ht) as (_ & _ & Hrange & _).
  eexists. split; [done|]. rewrite date_later.
  unfold weekday, day_of_week.
  pose proof (Z.mod_pos_bound (date now + 3) 7 ltac:(lia)) as Hwd.
  destruct (Z.leb_spec (Z.of_nat t - (date now + 3) mod 7) 0);
    repeat split; try lia.
  all: try (intros d' Hd'); Z.div_mod_to_equations; lia.
Qed.

Lemma next_day_is_the_first_to_come_witness :
  exists d,
    _preprocess_day_pattern 0 "  Next   FRIDAY " = IsoDate d /\
    day_of_week d = 4.
Proof.
  destruct (next_day_is_the_first_to_come 0 "  Next   FRIDAY " "   "
              "friday" 4 eq_refl ltac:(discriminate) eq_refl eq_refl)
    as (d & Hrun & _ & Hday & _).
  by exists d.
Defined.

(** X19. "on <day>" and a day name alone, in any letter case and with
    white space around and between the words, are preprocessed to the
    date of the first day from today on that falls on that day of the
    week: today when today is that day, else one to six days ahead. *)
Theorem on_day_is_the_first_from_today now text name t :
  strip (lower text) = name \/
  (exists ws,
     strip (lower text) = "on" +:+ ws +:+ name /\
     ws <> EmptyString /\ strip_is_empty ws = true) ->
  _DAY_NAMES !! t = Some name ->
  exists d,
    _preprocess_day_pattern now text = IsoDate d /\
    date now <= d <= date now + 6 /\
    day_of_week d = Z.of_nat t.
Proof.
  intros Htext Ht. unfold _preprocess_day_pattern.
  destruct (day_name t name Ht) as (Hindex & _ & Hrange & N1 & N2 & N3).
  pose proof (Z.mod_pos_bound (date now + 3) 7 ltac:(lia)) as Hwd.
  destruct Htext as [->|(ws & -> & Hne & Hws)].
  - rewrite N1, N2, N3, Hindex.
    eexists. split; [done|]. rewrite date_later.
    unfold weekday, day_of_week.
    destruct (Z.ltb_spec (Z.of_nat t - (date now + 3) mod 7) 0);
      repeat split; try lia; Z.div_mod_to_equations; lia.
  - rewrite (match_day_found "on" ws name t Hne Hws Ht).
    eexists. split; [done|]. rewrite date_later.
    unfold weekday, day_of_week.
    destruct (Z.ltb_spec (Z.of_nat t - (date now + 3) mod 7) 0);
      repeat split; try lia; Z.div_mod_to_equations; lia.
Qed.

Lemma on_day_is_the_first_from_today_witness :
  exists d,
    _preprocess_day_pattern 0 "on  Monday" = IsoDate d /\
    day_of_week d = 0.
Proof.
  destruct (on_day_is_the_first_from_today 0 "on  Monday" "monday" 0)
    as (d & Hrun & _ & Hday).
  - right. exists "  ". by repeat split.
  - reflexivity.
  - by exists d.
Defined.

(** X20. "this <day>", in any letter case and with white space around
    and between the words, is preprocessed to the date of that day in
    the week, Monday to Sunday, that today is in: it is before today
    when that day of the week has passed. *)
Theorem this_day_is_in_the_week_of_today now text ws name t :
  strip (lower text) = "this" +:+ ws +:+ name ->
  ws <> EmptyString ->
  strip_is_empty ws = true ->
  _DAY_NAMES !! t = Some name ->
  exists d,
    _preprocess_day_pattern now text = IsoDate d /\
    day_of_week d = Z.of_nat t /\
    d - day_of_week d = date now - day_of_week (date now) /\
    (d < date now <-> Z.of_nat t < weekday now).
Proof.
  intros Htext Hne Hws Ht. unfold _preprocess_day_pattern.
  rewrite Htext.
  replace (match_day "next" ("this" +:+ ws +:+ name)) with (@None nat)
    by done.
  rewrite (match_day_found "this" ws name t Hne Hws Ht).
  destruct (day_name t name Ht) as (_ & _ & Hrange & _).
  eexists. split; [done|]. rewrite date_later.
  unfold weekday, day_of_week.
  pose proof (Z.mod_pos_bound (date now + 3) 7 ltac:(lia)) as Hwd.
  repeat split; try lia; Z.div_mod_to_equations; lia.
Qed.

Lemma this_day_is_in_the_week_of_today_witness :
  exists d,
    _preprocess_day_pattern 0 "This  Monday" = IsoDate d /\
    day_of_week d = 0.
Proof.
  destruct (this_day_is_in_the_week_of_today 0 "This  Monday" "  "
              "monday" 0 eq_refl ltac:(discriminate) eq_refl eq_refl)
    as (d & Hrun & Hday & _).
  by exists d.
Defined.

End Dates.
